(** * universal_tts_system: cache, engine registry and effect pipelines

    A shallow embedding of

    - [dist/utils/audio_cache.py]            ([AudioCache]),
    - [dist/engines/plugins/elevenlabs_engine.py] ([ElevenLabsEngine.configure]),
    - [dist/engines/tts_factory.py] and [engines/factory.py] ([TTSEngineFactory]),
    - [utils/advanced_audio_processor.py]    ([AdvancedAudioProcessor._apply_effects]),
    - [utils/spectral_processor.py]          ([SpectralProcessor._enhance_harmonics]),

    together with the properties of the specification that concern them,
    and, from [CacheMaintenance] on, further properties of the same files:
    cache eviction, expiry and lookups, the engine's life cycle, the
    registries' handling of instances, switched-off effect chains and
    single-frame spectra.

    Python dictionaries keep insertion order, and several of the functions
    below iterate over them, so a [dict] is an association list without
    repeated keys; the payload directory, whose order is never observed, is a
    [gmap].  Clock readings are exact integers. *)

From Stdlib Require Import ZArith Floats.
From stdpp Require Import base gmap strings list sorting pretty.

Local Open Scope Z_scope.
Local Set Warnings "-register-all,-clear-no-such-hyp,-inexact-float".

(** ** Python values *)

(** The values a [Dict[str, Any]] of settings or effect parameters holds:
    the JSON-serialisable fragment of Python. *)
Inductive pyval : Type :=
  | PNone : pyval
  | PBool (b : bool) : pyval
  | PInt (z : Z) : pyval
  | PFloat (f : float) : pyval
  | PStr (s : string) : pyval
  | PList (l : list pyval) : pyval
  | PDict (d : list (string * pyval)) : pyval.

(** A Python [dict] with string keys, in insertion order. *)
Abbreviation pydict V := (list (string * V)).

Definition keys {V} (d : pydict V) : list string := d.*1.

(** [d.get(k)] / [d[k]] *)
Fixpoint dict_get {V} (k : string) (d : pydict V) : option V :=
  match d with
  | [] => None
  | (k', v) :: d' => if decide (k' = k) then Some v else dict_get k d'
  end.

(** [k in d] *)
Definition dict_mem {V} (k : string) (d : pydict V) : bool :=
  bool_decide (is_Some (dict_get k d)).

(** [d[k] = v]: an existing key keeps its position, a new one goes last. *)
Fixpoint dict_set {V} (k : string) (v : V) (d : pydict V) : pydict V :=
  match d with
  | [] => [(k, v)]
  | (k', v') :: d' =>
      if decide (k' = k) then (k', v) :: d' else (k', v') :: dict_set k v d'
  end.

(** [del d[k]] (the callers below check [k in d] first). *)
Fixpoint dict_del {V} (k : string) (d : pydict V) : pydict V :=
  match d with
  | [] => []
  | (k', v') :: d' =>
      if decide (k' = k) then d' else (k', v') :: dict_del k d'
  end.

(** [bool(v)]: the truth value of a Python object. *)
Definition truthy (v : pyval) : bool :=
  match v with
  | PNone => false
  | PBool b => b
  | PInt z => negb (z =? 0)
  | PFloat f => negb (PrimFloat.eqb f 0%float)
  | PStr s => negb (bool_decide (s = EmptyString))
  | PList l => negb (bool_decide (l = []))
  | PDict d => negb (bool_decide (d = []))
  end.

(** [bool(d.get(k))]: how the pipelines decide whether a stage is enabled. *)
Definition enabled (k : string) (d : pydict pyval) : bool :=
  match dict_get k d with
  | Some v => truthy v
  | None => false
  end.

(** Every dictionary inside a value has pairwise distinct keys, as every
    Python [dict] has. *)
Fixpoint py_wf (v : pyval) : Prop :=
  match v with
  | PList l => (fix all (l : list pyval) : Prop :=
                  match l with [] => True | x :: l' => py_wf x ∧ all l' end) l
  | PDict d => NoDup (keys d) ∧
               (fix all (d : pydict pyval) : Prop :=
                  match d with [] => True | (_, x) :: d' => py_wf x ∧ all d' end) d
  | _ => True
  end.

(** Equality of Python values as data, dictionaries compared as maps: the
    same keys with equal values, whatever the insertion order. *)
Inductive py_equiv : pyval → pyval → Prop :=
  | equiv_none : py_equiv PNone PNone
  | equiv_bool b : py_equiv (PBool b) (PBool b)
  | equiv_int z : py_equiv (PInt z) (PInt z)
  | equiv_float f : py_equiv (PFloat f) (PFloat f)
  | equiv_str s : py_equiv (PStr s) (PStr s)
  | equiv_list l l' :
      Forall2 py_equiv l l' → py_equiv (PList l) (PList l')
  | equiv_dict d d1 d' :
      Forall2 (λ a b, a.1 = b.1 ∧ py_equiv a.2 b.2) d d1 →
      d1 ≡ₚ d' →
      py_equiv (PDict d) (PDict d').

(** ** Facts about dictionaries *)

Lemma pyval_rect' (P : pyval → Prop) :
  P PNone → (∀ b, P (PBool b)) → (∀ z, P (PInt z)) → (∀ f, P (PFloat f)) →
  (∀ s, P (PStr s)) →
  (∀ l, Forall P l → P (PList l)) →
  (∀ d, Forall (λ kv, P kv.2) d → P (PDict d)) →
  ∀ v, P v.
Proof.
  intros Hn Hb Hi Hf Hs Hl Hd.
  fix IH 1. intros [ | b | z | f | s | l | d].
  - exact Hn.
  - apply Hb.
  - apply Hi.
  - apply Hf.
  - apply Hs.
  - apply Hl. induction l as [|x l IHl]; constructor; [apply IH | exact IHl].
  - apply Hd. induction d as [|[k x] d IHd]; constructor; [apply IH | exact IHd].
Qed.

Lemma py_wf_list l : py_wf (PList l) ↔ Forall py_wf l.
Proof.
  induction l as [|x l IHl]; simpl.
  - split; [constructor | done].
  - rewrite Forall_cons. simpl in IHl. by rewrite IHl.
Qed.

Lemma py_wf_dict d :
  py_wf (PDict d) ↔ NoDup (keys d) ∧ Forall (λ kv, py_wf kv.2) d.
Proof.
  simpl. apply and_iff_compat_l.
  induction d as [|[k x] d IHd]; simpl.
  - split; [constructor | done].
  - rewrite Forall_cons. simpl. by rewrite IHd.
Qed.

Lemma dict_get_Some {V} k (v : V) d : dict_get k d = Some v → (k, v) ∈ d.
Proof.
  induction d as [|[k' v'] d IH]; simpl; [done|].
  case_decide; intros; simplify_eq; [left | right; auto].
Qed.

Lemma dict_get_None {V} k (d : pydict V) : dict_get k d = None ↔ k ∉ keys d.
Proof.
  unfold keys. induction d as [|[k' v'] d IH]; simpl.
  - split; [intros _ H%elem_of_nil; done | done].
  - rewrite not_elem_of_cons. case_decide; subst.
    + split; [done | intros [? _]; done].
    + rewrite IH. split; [by split | by intros [_ ?]].
Qed.

Lemma dict_mem_keys {V} k (d : pydict V) : dict_mem k d = true ↔ k ∈ keys d.
Proof.
  unfold dict_mem. rewrite bool_decide_eq_true.
  destruct (dict_get k d) eqn:E.
  - split; [intros _ | by eauto].
    apply dict_get_Some in E. unfold keys. apply list_elem_of_fmap. by exists (k, v).
  - apply dict_get_None in E. split; [by intros [? ?] | done].
Qed.

Lemma dict_get_set_eq {V} k (v : V) d : dict_get k (dict_set k v d) = Some v.
Proof.
  induction d as [|[k' v'] d IH]; simpl.
  - by rewrite decide_True.
  - case_decide; simpl; subst.
    + by rewrite decide_True.
    + by rewrite decide_False.
Qed.

Lemma dict_get_set_ne {V} k k' (v : V) d :
  k ≠ k' → dict_get k' (dict_set k v d) = dict_get k' d.
Proof.
  intros Hne. induction d as [|[k0 v0] d IH]; simpl.
  - by rewrite decide_False.
  - case_decide; simpl; subst.
    + by rewrite !decide_False.
    + by rewrite IH.
Qed.

Lemma keys_dict_set_mem {V} k (v : V) d :
  k ∈ keys d → keys (dict_set k v d) = keys d.
Proof.
  unfold keys. induction d as [|[k0 v0] d IH]; simpl; [by intros ?%elem_of_nil|].
  intros Hin. case_decide; simpl; subst; [done|].
  f_equal. apply IH. by apply elem_of_cons in Hin as [?|?].
Qed.

Lemma keys_dict_set_new {V} k (v : V) d :
  k ∉ keys d → keys (dict_set k v d) = keys d ++ [k].
Proof.
  unfold keys. induction d as [|[k0 v0] d IH]; simpl; [done|].
  intros [??]%not_elem_of_cons. rewrite decide_False by done.
  simpl. f_equal. by apply IH.
Qed.

Lemma dict_set_NoDup {V} k (v : V) d : NoDup (keys d) → NoDup (keys (dict_set k v d)).
Proof.
  intros Hnd. destruct (decide (k ∈ keys d)).
  - by rewrite keys_dict_set_mem.
  - rewrite keys_dict_set_new by done.
    apply NoDup_app. split_and!; [done| |apply NoDup_singleton].
    intros x Hx ->%list_elem_of_singleton. done.
Qed.

Lemma dict_del_sublist {V} k (d : pydict V) : sublist (dict_del k d) d.
Proof.
  induction d as [|[k' v'] d IH]; simpl; [done|].
  case_decide; [by apply sublist_cons | by apply sublist_skip].
Qed.

Lemma keys_sublist {V} (d d' : pydict V) : sublist d d' → sublist (keys d) (keys d').
Proof. unfold keys. apply fmap_sublist. Qed.

Lemma dict_del_NoDup {V} k (d : pydict V) : NoDup (keys d) → NoDup (keys (dict_del k d)).
Proof.
  intros Hnd.
  exact (sublist_NoDup _ _ Hnd (keys_sublist _ _ (dict_del_sublist k d))).
Qed.

Lemma keys_dict_del_notin {V} k (d : pydict V) :
  NoDup (keys d) → k ∉ keys (dict_del k d).
Proof.
  unfold keys. induction d as [|[k' v'] d IH]; simpl; [intros _ ?%elem_of_nil; done|].
  intros [Hk Hnd]%NoDup_cons. case_decide; simpl; subst; [done|].
  apply not_elem_of_cons. split; [done | by apply IH].
Qed.

Lemma keys_dict_del_other {V} k k' (d : pydict V) :
  k ≠ k' → k' ∈ keys d → k' ∈ keys (dict_del k d).
Proof.
  unfold keys. intros Hne. induction d as [|[k0 v0] d IH]; simpl; [done|].
  intros Hin. apply elem_of_cons in Hin as [->|Hin].
  - rewrite decide_False by done. by left.
  - case_decide; simpl; [done | right; auto].
Qed.

Lemma dict_get_del_ne {V} k k' (d : pydict V) :
  k ≠ k' → dict_get k' (dict_del k d) = dict_get k' d.
Proof.
  intros Hne. induction d as [|[k0 v0] d IH]; simpl; [done|].
  case_decide; simpl; subst.
  - by rewrite decide_False.
  - by rewrite IH.
Qed.

Lemma dict_del_length {V} k (d : pydict V) :
  k ∈ keys d → S (length (dict_del k d)) = length d.
Proof.
  unfold keys. induction d as [|[k0 v0] d IH]; simpl; [by intros ?%elem_of_nil|].
  intros Hin. case_decide; simpl; subst; [done|].
  f_equal. apply IH. by apply elem_of_cons in Hin as [?|?].
Qed.

Lemma dict_get_elem_of {V} k (v : V) d :
  NoDup (keys d) → (k, v) ∈ d → dict_get k d = Some v.
Proof.
  unfold keys. induction d as [|[k0 v0] d IH]; simpl; [by intros _ ?%elem_of_nil|].
  intros [Hk Hnd]%NoDup_cons Hin.
  apply elem_of_cons in Hin as [?|Hin]; simplify_eq.
  - by rewrite decide_True.
  - rewrite decide_False; [by apply IH|].
    intros ->. apply Hk. apply list_elem_of_fmap. by exists (k, v).
Qed.

Lemma dict_items_functional {V} k (v1 v2 : V) d :
  NoDup (keys d) → (k, v1) ∈ d → (k, v2) ∈ d → v1 = v2.
Proof.
  intros Hnd H1%(dict_get_elem_of _ _ _ Hnd) H2%(dict_get_elem_of _ _ _ Hnd).
  congruence.
Qed.

Lemma dict_get_sublist {V} k (v : V) d d' :
  NoDup (keys d') → sublist d d' → dict_get k d = Some v → dict_get k d' = Some v.
Proof.
  intros Hnd Hsub Hget%dict_get_Some.
  apply dict_get_elem_of; [done|]. by eapply elem_of_sublist.
Qed.

(** * The audio cache ([dist/utils/audio_cache.py]) *)

Module AudioCache.

Section cache.
(** Library primitives that are used as black boxes: [float.__repr__], the
    string escaping of the [json] encoder and [hashlib.md5(..).hexdigest()]. *)
Context (float_repr : float → string)
        (encode_basestring_ascii : string → string)
        (md5_hexdigest : string → string).

Definition dquote : string := String (Ascii.ascii_of_nat 34) EmptyString.

Definition json_string (s : string) : string :=
  dquote +:+ encode_basestring_ascii s +:+ dquote.

(** Items are ordered by key; keys of one dictionary are distinct, so the
    values never take part in a comparison. *)
Definition item_le {V} (a b : string * V) : Prop := String.le a.1 b.1.

#[local] Instance item_le_dec {V} (a b : string * V) : Decision (item_le a b).
Proof. unfold item_le. apply _. Defined.

Definition sorted_items {V} (d : pydict V) : pydict V := merge_sort item_le d.

Definition item_text (kv : string * string) : string :=
  json_string kv.1 +:+ ": " +:+ kv.2.

(** The encoder sorts the items of each dictionary and then encodes them;
    here each value is encoded first and the encoded items are sorted, which
    is the same list because only keys are compared. *)
Fixpoint json_dumps_sorted (v : pyval) : string :=
  match v with
  | PNone => "null"
  | PBool true => "true"
  | PBool false => "false"
  | PInt z => pretty z
  | PFloat f => float_repr f
  | PStr s => json_string s
  | PList l =>
      "[" +:+ String.concat ", " (List.map json_dumps_sorted l) +:+ "]"
  | PDict d =>
      "{" +:+
      String.concat ", "
        (List.map item_text
           (sorted_items
              (List.map (λ kv, (kv.1, json_dumps_sorted kv.2)) d))) +:+
      "}"
  end.

(** [AudioCache._generate_cache_key] *)
Definition _generate_cache_key
    (text engine voice_id : string) (settings : pydict pyval) : string :=
  md5_hexdigest
    (text +:+ ":" +:+ engine +:+ ":" +:+ voice_id +:+ ":" +:+
     json_dumps_sorted (PDict settings)).


(** *** State *)

Definition bytes := list Byte.byte.

(** One value of [cache_index]. *)
Record entry := Entry {
  created_at : Z;
  last_accessed : Z;
  size : Z;
  entry_engine : string;
  entry_voice_id : string
}.

(** The cache object together with the payload files of its directory:
    [cache_files !! k] is the content of [cache_dir / (k + ".mp3")] when
    that file exists.  [_save_index] only rewrites [cache_index.json], which
    is read back by [_load_index] at construction and by nothing else, so
    the file is not part of the state and [_save_index] is the identity
    here. *)
Record cache := Cache {
  cache_files : gmap string bytes;
  max_size_bytes : Z;
  max_age_seconds : Z;
  cache_index : pydict entry
}.

Definition set_files (f : gmap string bytes → gmap string bytes) (st : cache) :=
  Cache (f (cache_files st)) (max_size_bytes st) (max_age_seconds st)
        (cache_index st).

Definition set_index (f : pydict entry → pydict entry) (st : cache) :=
  Cache (cache_files st) (max_size_bytes st) (max_age_seconds st)
        (f (cache_index st)).

(** [AudioCache.__init__]: [dir] is what the directory already holds and
    [loaded] what [_load_index] reads from it ([{}] when there is no index
    file or it does not parse). *)
Definition __init__ (dir : gmap string bytes) (loaded : pydict entry)
    (max_size_mb max_age_days : Z) : cache :=
  Cache dir (max_size_mb * 1024 * 1024) (max_age_days * 24 * 60 * 60) loaded.

(** What the operating system and the clock answer during one call. *)
Inductive write_result :=
  | WriteOk
  | OpenFails                 (* [open(.., 'wb')] raises: file untouched *)
  | WriteFails (written : nat). (* truncated, then only a prefix written *)

Record env := Env {
  time1 : Z;                       (* first [time.time()] of the call *)
  time2 : Z;                       (* second [time.time()] of the call *)
  os_remove_ok : string → bool;    (* does [os.remove] of this payload succeed *)
  write_outcome : write_result;    (* the payload write of [cache_audio] *)
  read_ok : bool                   (* the payload read of [get_cached_audio] *)
}.

Inductive exn := ValueError.

Inductive outcome (A : Type) :=
  | Returned (a : A) (st : cache)
  | Raised (e : exn) (st : cache).
Arguments Returned {A} a st.
Arguments Raised {A} e st.

Definition final_state {A} (o : outcome A) : cache :=
  match o with Returned _ st | Raised _ st => st end.

(** *** Operations *)

(** [cache_path.stat().st_size if cache_path.exists() else 0] *)
Definition payload_size (st : cache) (k : string) : Z :=
  match cache_files st !! k with
  | Some b => Z.of_nat (length b)
  | None => 0
  end.

(** [_get_cache_size] *)
Definition _get_cache_size (st : cache) : Z :=
  foldr (λ k total, payload_size st k + total) 0 (keys (cache_index st)).

(** [remove_from_cache] *)
Definition remove_from_cache (e : env) (cache_key : string) (st : cache) : cache :=
  if dict_mem cache_key (cache_index st) then
    let st1 :=
      match cache_files st !! cache_key with
      | Some _ =>
          if os_remove_ok e cache_key
          then set_files (delete cache_key) st
          else st
      | None => st
      end in
    set_index (dict_del cache_key) st1
  else st.

(** [max(xs, key=f)]: the first element whose key is largest; [None] stands
    for the [ValueError] on an empty sequence. *)
Definition py_max {A} (f : A → Z) (xs : list A) : option A :=
  match xs with
  | [] => None
  | x :: xs' => Some (foldl (λ best y, if f y >? f best then y else best) x xs')
  end.

Inductive loop_result :=
  | LoopDone (st : cache)
  | LoopRaised (st : cache)
  | LoopOutOfFuel.

(** The [while] loop of [_remove_largest_entries]. *)
Fixpoint evict_loop (fuel : nat) (e : env) (target_size : Z) (st : cache)
    : loop_result :=
  if _get_cache_size st >? target_size then
    match py_max (payload_size st) (keys (cache_index st)) with
    | None => LoopRaised st
    | Some largest_key =>
        match fuel with
        | O => LoopOutOfFuel
        | S fuel' =>
            evict_loop fuel' e target_size (remove_from_cache e largest_key st)
        end
    end
  else LoopDone st.

(** [_remove_largest_entries]: every iteration deletes one index entry, so
    as many iterations as there are entries suffice
    (see [evict_loop_fuel]). *)
Definition _remove_largest_entries (e : env) (target_size : Z) (st : cache)
    : loop_result :=
  evict_loop (length (cache_index st)) e target_size st.

(** [get_cached_audio] *)
Definition get_cached_audio (e : env)
    (text engine voice_id : string) (settings : pydict pyval) (st : cache)
    : option bytes * cache :=
  let cache_key := _generate_cache_key text engine voice_id settings in
  match dict_get cache_key (cache_index st) with
  | None => (None, st)
  | Some entry =>
      match cache_files st !! cache_key with
      | None => (None, set_index (dict_del cache_key) st)
      | Some payload =>
          if time1 e - created_at entry >? max_age_seconds st then
            (None, remove_from_cache e cache_key st)
          else
            let entry' :=
              Entry (created_at entry) (time2 e) (size entry)
                    (entry_engine entry) (entry_voice_id entry) in
            let st' := set_index (dict_set cache_key entry') st in
            if read_ok e then (Some payload, st') else (None, st')
      end
  end.

(** [cache_audio] *)
Definition cache_audio (e : env)
    (text engine voice_id : string) (settings : pydict pyval)
    (audio_data : bytes) (st : cache) : outcome string :=
  let cache_key := _generate_cache_key text engine voice_id settings in
  let len := Z.of_nat (length audio_data) in
  let current_size := _get_cache_size st in
  let made_space :=
    if current_size + len >? max_size_bytes st
    then _remove_largest_entries e (max_size_bytes st - len) st
    else LoopDone st in
  match made_space with
  | LoopOutOfFuel => Raised ValueError st
  | LoopRaised st1 => Raised ValueError st1
  | LoopDone st1 =>
      match write_outcome e with
      | OpenFails => Returned cache_key st1
      | WriteFails n =>
          Returned cache_key
            (set_files (insert cache_key (take n audio_data)) st1)
      | WriteOk =>
          let st2 := set_files (insert cache_key audio_data) st1 in
          let new_entry := Entry (time1 e) (time2 e) len engine voice_id in
          Returned cache_key (set_index (dict_set cache_key new_entry) st2)
      end
  end.

Definition returned {A} (o : outcome A) : Prop :=
  match o with Returned _ _ => True | Raised _ _ => False end.

(** [await cache_audio(..)] immediately followed by
    [await get_cached_audio(..)] with the same arguments. *)
Definition cache_then_get (e1 e2 : env)
    (text engine voice_id : string) (settings : pydict pyval)
    (audio_data : bytes) (st : cache) : outcome (option bytes) :=
  match cache_audio e1 text engine voice_id settings audio_data st with
  | Raised x st1 => Raised x st1
  | Returned _ st1 =>
      let '(r, st2) := get_cached_audio e2 text engine voice_id settings st1 in
      Returned r st2
  end.

(** [get_cache_stats] *)
Record stats := Stats {
  total_size_bytes : Z;
  entry_count : nat;
  oldest_entry_age_seconds : Z;
  stats_max_size_bytes : Z;
  stats_max_age_seconds : Z
}.

Definition get_cache_stats (e : env) (st : cache) : stats :=
  let oldest_entry :=
    match created_at <$> (cache_index st).*2 with
    | [] => time1 e
    | t :: ts => foldl Z.min t ts
    end in
  Stats (_get_cache_size st) (length (cache_index st))
        (time2 e - oldest_entry) (max_size_bytes st) (max_age_seconds st).

(** *** Sizes *)

(** The cache keeps well-formed dictionaries well formed. *)
Definition cache_wf (st : cache) : Prop := NoDup (keys (cache_index st)).

Definition sum_sizes (st : cache) (ks : list string) : Z :=
  foldr (λ k total, payload_size st k + total) 0 ks.

Lemma sum_sizes_cons st k ks :
  sum_sizes st (k :: ks) = payload_size st k + sum_sizes st ks.
Proof. done. Qed.

Lemma get_cache_size_sum st :
  _get_cache_size st = sum_sizes st (keys (cache_index st)).
Proof. done. Qed.

#[local] Arguments sum_sizes : simpl never.

Lemma payload_size_nonneg st k : 0 ≤ payload_size st k.
Proof. unfold payload_size. destruct (cache_files st !! k); lia. Qed.

Lemma sum_sizes_nonneg st ks : 0 ≤ sum_sizes st ks.
Proof.
  induction ks as [|k ks IH]; [done|]. rewrite sum_sizes_cons.
  pose proof (payload_size_nonneg st k). lia.
Qed.

Lemma get_cache_size_nonneg st : 0 ≤ _get_cache_size st.
Proof. rewrite get_cache_size_sum. apply sum_sizes_nonneg. Qed.

Lemma sum_sizes_ext st st' ks :
  (∀ k, k ∈ ks → payload_size st' k = payload_size st k) →
  sum_sizes st' ks = sum_sizes st ks.
Proof.
  induction ks as [|k ks IH]; [done|]. intros H. rewrite !sum_sizes_cons.
  rewrite H by left. rewrite IH; [done|]. intros ??. apply H. by right.
Qed.

Lemma sum_sizes_app st ks ks' :
  sum_sizes st (ks ++ ks') = sum_sizes st ks + sum_sizes st ks'.
Proof.
  induction ks as [|k ks IH]; simpl; [by rewrite Z.add_0_l|].
  rewrite !sum_sizes_cons, IH. lia.
Qed.

Lemma sum_sizes_dict_del {V} st k (d : pydict V) :
  NoDup (keys d) → k ∈ keys d →
  sum_sizes st (keys d) = payload_size st k + sum_sizes st (keys (dict_del k d)).
Proof.
  unfold keys. induction d as [|[k0 v0] d IH]; csimpl; [by intros _ ?%elem_of_nil|].
  intros [Hk Hnd]%NoDup_cons Hin. rewrite sum_sizes_cons.
  case_decide; csimpl; subst; [done|].
  apply elem_of_cons in Hin as [?|Hin]; [done|].
  rewrite sum_sizes_cons, IH by done. lia.
Qed.

Lemma sum_sizes_insert_other st k b ks :
  k ∉ ks → sum_sizes (set_files (insert k b) st) ks = sum_sizes st ks.
Proof.
  intros Hk. apply sum_sizes_ext. intros k' Hk'.
  unfold payload_size; simpl. rewrite lookup_insert_ne; [done|].
  intros ->. done.
Qed.

Lemma payload_size_insert st k b :
  payload_size (set_files (insert k b) st) k = Z.of_nat (length b).
Proof. unfold payload_size; simpl. by rewrite lookup_insert_eq. Qed.

Lemma sum_sizes_insert_le st k b ks :
  NoDup ks →
  sum_sizes (set_files (insert k b) st) ks
  ≤ sum_sizes st ks + Z.of_nat (length b).
Proof.
  induction ks as [|k0 ks IH]; [intros _; change (0 ≤ 0 + Z.of_nat (length b)); lia|].
  intros [Hk Hnd]%NoDup_cons. rewrite !sum_sizes_cons.
  destruct (decide (k0 = k)) as [->|Hne].
  - rewrite payload_size_insert, sum_sizes_insert_other by done.
    pose proof (payload_size_nonneg st k). lia.
  - specialize (IH Hnd).
    assert (payload_size (set_files (insert k b) st) k0 = payload_size st k0) as ->.
    { unfold payload_size; simpl. by rewrite lookup_insert_ne. }
    lia.
Qed.

(** *** Removal and eviction *)

Lemma remove_from_cache_index e k st :
  cache_index (remove_from_cache e k st) = dict_del k (cache_index st).
Proof.
  unfold remove_from_cache. destruct (dict_mem k (cache_index st)) eqn:Hm.
  - by destruct (cache_files st !! k), (os_remove_ok e k).
  - assert (k ∉ keys (cache_index st)) as Hk.
    { intros ?%dict_mem_keys. congruence. }
    clear Hm. induction (cache_index st) as [|[k0 v0] d IH]; simpl; [done|].
    unfold keys in Hk; simpl in Hk. apply not_elem_of_cons in Hk as [??].
    rewrite decide_False by done. f_equal. by apply IH.
Qed.

Lemma remove_from_cache_files e k st k' :
  k' ≠ k →
  cache_files (remove_from_cache e k st) !! k' = cache_files st !! k'.
Proof.
  intros Hne. unfold remove_from_cache.
  destruct (dict_mem k (cache_index st)); [|done].
  destruct (cache_files st !! k), (os_remove_ok e k); simpl; try done.
  by rewrite lookup_delete_ne.
Qed.

Lemma remove_from_cache_limits e k st :
  max_size_bytes (remove_from_cache e k st) = max_size_bytes st ∧
  max_age_seconds (remove_from_cache e k st) = max_age_seconds st.
Proof.
  unfold remove_from_cache. destruct (dict_mem k (cache_index st)); [|done].
  by destruct (cache_files st !! k), (os_remove_ok e k).
Qed.

Lemma remove_from_cache_wf e k st : cache_wf st → cache_wf (remove_from_cache e k st).
Proof. unfold cache_wf. rewrite remove_from_cache_index. apply dict_del_NoDup. Qed.

(** Removing an indexed key lowers the total by the size of its payload,
    whether or not [os.remove] succeeds: only indexed keys are counted. *)
Lemma get_cache_size_remove e k st :
  cache_wf st → k ∈ keys (cache_index st) →
  _get_cache_size (remove_from_cache e k st)
  = _get_cache_size st - payload_size st k.
Proof.
  intros Hwf Hk. rewrite !get_cache_size_sum, remove_from_cache_index.
  rewrite (sum_sizes_dict_del st k (cache_index st)) by done.
  rewrite (sum_sizes_ext st); [lia|].
  intros k' Hk'. unfold payload_size. rewrite remove_from_cache_files; [done|].
  intros ->. by apply (keys_dict_del_notin k (cache_index st)).
Qed.

Lemma py_max_elem {A} (f : A → Z) xs x : py_max f xs = Some x → x ∈ xs.
Proof.
  destruct xs as [|x0 xs]; simpl; [done|]. intros [= <-].
  revert x0. induction xs as [|y xs IH]; intros x0; simpl; [left|].
  destruct (f y >? f x0).
  - right. apply IH.
  - specialize (IH x0). apply elem_of_cons in IH as [->|?]; [left | right; by right].
Qed.

Lemma evict_loop_unfold fuel e t st :
  evict_loop fuel e t st =
  if _get_cache_size st >? t then
    match py_max (payload_size st) (keys (cache_index st)) with
    | None => LoopRaised st
    | Some k =>
        match fuel with
        | O => LoopOutOfFuel
        | S fuel' => evict_loop fuel' e t (remove_from_cache e k st)
        end
    end
  else LoopDone st.
Proof. by destruct fuel. Qed.

(** What the eviction loop guarantees, for any fuel that covers the index:
    it never runs out of fuel; it stops normally with the total at or below
    the target, or raises once the index is empty, which can only happen for
    a negative target; and all it does to the index is delete entries. *)
Lemma evict_loop_spec fuel e t st :
  (length (cache_index st) ≤ fuel)%nat →
  match evict_loop fuel e t st with
  | LoopDone st' =>
      _get_cache_size st' ≤ t ∧
      sublist (cache_index st') (cache_index st) ∧
      max_size_bytes st' = max_size_bytes st ∧
      max_age_seconds st' = max_age_seconds st
  | LoopRaised st' =>
      t < 0 ∧ cache_index st' = [] ∧
      max_size_bytes st' = max_size_bytes st ∧
      max_age_seconds st' = max_age_seconds st
  | LoopOutOfFuel => False
  end.
Proof.
  revert st. induction fuel as [|fuel IH]; intros st Hlen;
    rewrite evict_loop_unfold;
    (destruct (_get_cache_size st >? t) eqn:Hgt; [|split_and!; [lia|done..]]);
    (destruct (py_max _ _) as [k|] eqn:Hmax;
      [apply py_max_elem in Hmax|
       destruct (cache_index st) as [|[??]?] eqn:Hidx; [|done];
       split_and!; try done;
       rewrite get_cache_size_sum, Hidx in Hgt; unfold sum_sizes in Hgt;
       simpl in Hgt; lia]).
  - destruct (cache_index st); [by apply elem_of_nil in Hmax | simpl in Hlen; lia].
  - pose proof (dict_del_length k _ Hmax) as Hdel.
    pose proof (remove_from_cache_limits e k st) as [Hms Hma].
    specialize (IH (remove_from_cache e k st)).
    rewrite remove_from_cache_index in IH.
    destruct (evict_loop fuel e t (remove_from_cache e k st)) as [st'|st'|].
    + destruct IH as (?&?&?&?); [lia|]. split_and!; [done| |congruence..].
      etrans; [done|]. apply dict_del_sublist.
    + destruct IH as (?&?&?&?); [lia|]. split_and!; [done..|congruence|congruence].
    + apply IH. lia.
Qed.

Lemma evict_loop_wf fuel e t st :
  cache_wf st →
  match evict_loop fuel e t st with
  | LoopDone st' | LoopRaised st' => cache_wf st'
  | LoopOutOfFuel => True
  end.
Proof.
  revert st. induction fuel as [|fuel IH]; intros st Hwf;
    rewrite evict_loop_unfold;
    destruct (_get_cache_size st >? t); try done;
    destruct (py_max _ _); try done.
  by apply IH, remove_from_cache_wf.
Qed.

(** More fuel than the length of the index changes nothing. *)
Lemma evict_loop_fuel fuel e t st :
  (length (cache_index st) ≤ fuel)%nat →
  evict_loop fuel e t st = _remove_largest_entries e t st.
Proof.
  unfold _remove_largest_entries.
  revert st. induction fuel as [|fuel IH]; intros st Hlen.
  - by destruct (cache_index st); [|simpl in Hlen; lia].
  - rewrite (evict_loop_unfold (S fuel)), (evict_loop_unfold (length _)).
    destruct (_get_cache_size st >? t); [|done].
    destruct (py_max _ _) as [k|] eqn:Hmax; [|done].
    apply py_max_elem in Hmax.
    pose proof (dict_del_length k _ Hmax) as Hdel.
    destruct (length (cache_index st)) as [|n] eqn:Hn; [lia|].
    assert (n = length (cache_index (remove_from_cache e k st))) as ->.
    { rewrite remove_from_cache_index. lia. }
    rewrite IH; [done|]. rewrite remove_from_cache_index. lia.
Qed.

Lemma remove_largest_entries_spec e t st :
  match _remove_largest_entries e t st with
  | LoopDone st' =>
      _get_cache_size st' ≤ t ∧
      sublist (cache_index st') (cache_index st) ∧
      max_size_bytes st' = max_size_bytes st ∧
      max_age_seconds st' = max_age_seconds st
  | LoopRaised st' =>
      t < 0 ∧ cache_index st' = [] ∧
      max_size_bytes st' = max_size_bytes st ∧
      max_age_seconds st' = max_age_seconds st
  | LoopOutOfFuel => False
  end.
Proof. by apply evict_loop_spec. Qed.

(** *** Insertion *)

Lemma get_cache_size_file st k b :
  cache_wf st →
  _get_cache_size (set_files (insert k b) st)
  ≤ _get_cache_size st + Z.of_nat (length b).
Proof. intros Hwf. rewrite !get_cache_size_sum. by apply sum_sizes_insert_le. Qed.

Lemma get_cache_size_written st k b v :
  cache_wf st →
  _get_cache_size (set_index (dict_set k v) (set_files (insert k b) st))
  ≤ _get_cache_size st + Z.of_nat (length b).
Proof.
  intros Hwf. rewrite !get_cache_size_sum. simpl.
  change (sum_sizes (set_index (dict_set k v) (set_files (insert k b) st)))
    with (sum_sizes (set_files (insert k b) st)).
  destruct (decide (k ∈ keys (cache_index st))) as [Hin|Hnin].
  - rewrite keys_dict_set_mem by done. by apply sum_sizes_insert_le.
  - rewrite keys_dict_set_new, sum_sizes_app, sum_sizes_insert_other by done.
    rewrite sum_sizes_cons, payload_size_insert.
    change (sum_sizes (set_files (insert k b) st) []) with 0. lia.
Qed.

(** The space check and eviction that open [cache_audio]. *)
Definition make_space (e : env) (len : Z) (st : cache) : loop_result :=
  if _get_cache_size st + len >? max_size_bytes st
  then _remove_largest_entries e (max_size_bytes st - len) st
  else LoopDone st.

Lemma make_space_spec e len st :
  0 ≤ len →
  match make_space e len st with
  | LoopDone st' =>
      _get_cache_size st' + len ≤ max_size_bytes st ∧
      sublist (cache_index st') (cache_index st) ∧
      max_size_bytes st' = max_size_bytes st ∧
      max_age_seconds st' = max_age_seconds st ∧
      (_get_cache_size st + len ≤ max_size_bytes st → st' = st)
  | LoopRaised st' =>
      max_size_bytes st < len ∧ cache_index st' = [] ∧
      max_size_bytes st' = max_size_bytes st ∧
      max_age_seconds st' = max_age_seconds st
  | LoopOutOfFuel => False
  end.
Proof.
  intros Hlen. unfold make_space.
  destruct (_get_cache_size st + len >? max_size_bytes st) eqn:Hgt.
  - pose proof (remove_largest_entries_spec e (max_size_bytes st - len) st) as H.
    destruct (_remove_largest_entries _ _ _); [| |done].
    + destruct H as (?&?&?&?). split_and!; [lia|done|done|done|intros; lia].
    + destruct H as (?&?&?&?). split_and!; [lia|done|done|done].
  - split_and!; [lia|done|done|done|done].
Qed.

Lemma make_space_wf e len st :
  cache_wf st →
  match make_space e len st with
  | LoopDone st' | LoopRaised st' => cache_wf st'
  | LoopOutOfFuel => True
  end.
Proof.
  intros Hwf. unfold make_space.
  destruct (_ >? _); [by apply evict_loop_wf | done].
Qed.

Lemma cache_audio_unfold e text engine voice_id settings audio_data st :
  cache_audio e text engine voice_id settings audio_data st =
  let cache_key := _generate_cache_key text engine voice_id settings in
  let len := Z.of_nat (length audio_data) in
  match make_space e len st with
  | LoopOutOfFuel => Raised ValueError st
  | LoopRaised st1 => Raised ValueError st1
  | LoopDone st1 =>
      match write_outcome e with
      | OpenFails => Returned cache_key st1
      | WriteFails n =>
          Returned cache_key
            (set_files (insert cache_key (take n audio_data)) st1)
      | WriteOk =>
          Returned cache_key
            (set_index
               (dict_set cache_key (Entry (time1 e) (time2 e) len engine voice_id))
               (set_files (insert cache_key audio_data) st1))
      end
  end.
Proof. done. Qed.

(** A payload that fits is always accepted: [cache_audio] returns. *)
Lemma cache_audio_returns e text engine voice_id settings audio_data st :
  Z.of_nat (length audio_data) ≤ max_size_bytes st →
  returned (cache_audio e text engine voice_id settings audio_data st).
Proof.
  intros Hfit. rewrite cache_audio_unfold. simpl.
  pose proof (make_space_spec e (Z.of_nat (length audio_data)) st) as H.
  destruct (make_space _ _ _).
  - by destruct (write_outcome e).
  - destruct H as (?&_); lia.
  - destruct H. lia.
Qed.

(** A payload larger than [max_size_bytes] is never accepted: the eviction
    loop empties the index and then [max()] of no keys raises. *)
Lemma cache_audio_oversize e text engine voice_id settings audio_data st :
  max_size_bytes st < Z.of_nat (length audio_data) →
  ∃ st', cache_audio e text engine voice_id settings audio_data st
         = Raised ValueError st' ∧ cache_index st' = [].
Proof.
  intros Hbig. rewrite cache_audio_unfold. simpl.
  pose proof (make_space_spec e (Z.of_nat (length audio_data)) st) as H.
  pose proof (get_cache_size_nonneg st).
  destruct (make_space _ _ _) as [st'|st'|].
  - pose proof (get_cache_size_nonneg st'). destruct H as (?&_); lia.
  - exists st'. split; [done|]. apply H. lia.
  - destruct H. lia.
Qed.

(** *** The cache key *)

#[local] Instance item_le_trans {V} : Transitive (@item_le V).
Proof. intros a b c. unfold item_le. apply transitivity. Qed.

#[local] Instance item_le_total {V} : Total (@item_le V).
Proof. intros a b. unfold item_le. apply total, _. Qed.

(** Sorting forgets the insertion order of a dictionary. *)
Lemma sorted_items_Permutation {V} (d d' : pydict V) :
  NoDup (keys d) → d ≡ₚ d' → sorted_items d = sorted_items d'.
Proof.
  intros Hnd Hp. unfold sorted_items.
  apply (StronglySorted_unique_strong item_le).
  - intros [k1 v1] [k2 v2] H1 H2 H12 H21.
    rewrite merge_sort_Permutation in H1, H2. rewrite <- Hp in H2.
    unfold item_le in *; simpl in *.
    assert (k1 = k2) as -> by (by apply (anti_symm String.le)).
    f_equal. by eapply dict_items_functional.
  - apply StronglySorted_merge_sort; apply _.
  - apply StronglySorted_merge_sort; apply _.
  - by rewrite !merge_sort_Permutation.
Qed.

Lemma json_dumps_sorted_equiv v v' :
  py_wf v → py_equiv v v' → json_dumps_sorted v = json_dumps_sorted v'.
Proof.
  revert v'. induction v as [ | b | z | f | s | l IH | d IH] using pyval_rect';
    intros v' Hwf Heq; inv Heq; try done.
  - simpl. apply py_wf_list in Hwf.
    assert (List.map json_dumps_sorted l = List.map json_dumps_sorted l') as ->;
      [|done].
    match goal with H : Forall2 py_equiv _ _ |- _ =>
      induction H as [|x y l l' Hxy Hl IHl] end; [done|].
    apply Forall_cons in IH as [IHx IH]. apply Forall_cons in Hwf as [Hx Hwf].
    simpl. f_equal; auto.
  - apply py_wf_dict in Hwf as [Hnd Hwf].
    match goal with H : Forall2 _ d ?d1, Hp : ?d1 ≡ₚ ?d2 |- _ =>
      rename H into Hpt; rename Hp into Hperm; rename d1 into dm; rename d2 into d' end.
    simpl.
    assert (List.map (λ kv, (kv.1, json_dumps_sorted kv.2)) d
            = List.map (λ kv, (kv.1, json_dumps_sorted kv.2)) dm) as ->.
    { clear Hnd Hperm.
      induction Hpt as [|[k x] [k' y] l l' [Hk Hxy] Hl IHl]; [done|].
      apply Forall_cons in IH as [IHx IH]. apply Forall_cons in Hwf as [Hx Hwf].
      simpl in *. subst. f_equal; [f_equal; auto | auto]. }
    rewrite (sorted_items_Permutation _
               (List.map (λ kv, (kv.1, json_dumps_sorted kv.2)) d')); [done| |].
    + assert (keys dm = keys d) as Hk.
      { clear -Hpt. unfold keys.
        induction Hpt as [|[k x] [k' y] l l' [Hk Hxy] Hl IHl]; [done|].
        simpl in *. by subst; f_equal. }
      unfold keys in *. rewrite <- list_fmap_compose.
      replace (fst ∘ (λ kv : string * pyval, (kv.1, json_dumps_sorted kv.2)))
        with (fst : string * pyval → string) by done.
      by rewrite Hk.
    + by apply Permutation_map.
Qed.

(** C2. Fingerprint determinism: the cache key is a function of
    [(text, engine, voice_id, settings)] in which the settings count as a
    map.  Two settings dictionaries with the same keys and equal values
    (nested dictionaries compared the same way), inserted in any order, give
    the same key for equal text, engine and voice id. *)
Theorem cache_key_insertion_order_irrelevant
    (text engine voice_id : string) (s s' : pydict pyval) :
  py_wf (PDict s) →
  py_equiv (PDict s) (PDict s') →
  _generate_cache_key text engine voice_id s
  = _generate_cache_key text engine voice_id s'.
Proof.
  intros Hwf Heq. unfold _generate_cache_key.
  by rewrite (json_dumps_sorted_equiv _ _ Hwf Heq).
Qed.

(** *** Properties of the cache operations *)

(** C1, as amended. Cache round trip: for every text, engine, voice id,
    settings and payload of at most [max_size_bytes] bytes, when the payload
    write and the later read succeed and the lookup reads the clock at most
    [max_age_seconds] after the insertion did, [cache_audio] followed by
    [get_cached_audio] with the same arguments returns exactly the
    payload. *)
Theorem cache_round_trip e1 e2 text engine voice_id settings audio_data st :
  Z.of_nat (length audio_data) ≤ max_size_bytes st →
  write_outcome e1 = WriteOk →
  read_ok e2 = true →
  time1 e2 - time1 e1 ≤ max_age_seconds st →
  ∃ st', cache_then_get e1 e2 text engine voice_id settings audio_data st
         = Returned (Some audio_data) st'.
Proof.
  intros Hfit Hw Hr Hage. unfold cache_then_get.
  rewrite cache_audio_unfold. simpl.
  pose proof (make_space_spec e1 (Z.of_nat (length audio_data)) st) as H.
  destruct (make_space _ _ _) as [st1|st1|].
  - destruct H as (_&_&_&Hmax&_); [lia|]. rewrite Hw.
    unfold get_cached_audio. simpl.
    rewrite dict_get_set_eq, lookup_insert_eq. simpl. rewrite Hmax.
    assert ((time1 e2 - time1 e1 >? max_age_seconds st) = false) as -> by lia.
    rewrite Hr. eauto.
  - destruct H as (?&_); lia.
  - destruct H. lia.
Qed.

(** The size bound that does hold: once [cache_audio] has returned, the
    total reported by [get_cache_stats] is at most [max_size_bytes]; with a
    limit that is not negative the same is true of the state a raising call
    leaves. *)
Theorem cache_audio_size_bound e e' text engine voice_id settings audio_data st :
  cache_wf st →
  let o := cache_audio e text engine voice_id settings audio_data st in
  let s := get_cache_stats e' (final_state o) in
  returned o ∨ 0 ≤ max_size_bytes st →
  total_size_bytes s ≤ stats_max_size_bytes s ∧
  stats_max_size_bytes s = max_size_bytes st.
Proof.
  intros Hwf o s. subst o s. rewrite cache_audio_unfold. simpl.
  pose proof (make_space_spec e (Z.of_nat (length audio_data)) st) as H.
  pose proof (make_space_wf e (Z.of_nat (length audio_data)) st Hwf) as Hwf1.
  destruct (make_space _ _ _) as [st1|st1|]; [| |destruct H; lia].
  - destruct H as (Hsz&_&Hmax&_&_); [lia|]. intros _.
    destruct (write_outcome e); simpl; rewrite Hmax; (split; [|done]).
    + pose proof (get_cache_size_written st1
        (_generate_cache_key text engine voice_id settings) audio_data
        (Entry (time1 e) (time2 e) (Z.of_nat (length audio_data)) engine voice_id)
        Hwf1) as Hle. eapply Z.le_trans; [exact Hle | lia].
    + lia.
    + pose proof (get_cache_size_file st1
        (_generate_cache_key text engine voice_id settings)
        (take written audio_data) Hwf1) as Hle.
      rewrite length_take in Hle. eapply Z.le_trans; [exact Hle | lia].
  - destruct H as (_&Hidx&Hmax&_); [lia|]. simpl. intros [[]|Hpos].
    rewrite Hmax, get_cache_size_sum, Hidx. by split.
Qed.

(** C3, evaluated on the code.  An insertion of more than [max_size_bytes]
    bytes never returns, so there is no state "after [cache_audio] returns"
    to bound: the call evicts every entry, then [max()] of no keys raises
    [ValueError], which nothing catches.  The payload is not stored and the
    index is left empty.  [test_cache_size_limit] makes this call and expects
    it to return with the total within the limit. *)
Theorem oversize_insertion_never_returns
    e text engine voice_id settings audio_data st :
  max_size_bytes st < Z.of_nat (length audio_data) →
  ∃ st',
    cache_audio e text engine voice_id settings audio_data st
    = Raised ValueError st' ∧
    ¬ returned (cache_audio e text engine voice_id settings audio_data st) ∧
    cache_index st' = [] ∧
    max_size_bytes st' = max_size_bytes st.
Proof.
  intros Hbig. rewrite cache_audio_unfold. simpl.
  pose proof (make_space_spec e (Z.of_nat (length audio_data)) st) as H.
  pose proof (get_cache_size_nonneg st).
  destruct (make_space _ _ _) as [st'|st'|].
  - pose proof (get_cache_size_nonneg st'). destruct H as (?&_); lia.
  - destruct H as (_ & Hidx & Hmax & _); [lia|].
    exists st'. split_and!; [done| |done|done]. simpl. tauto.
  - destruct H. lia.
Qed.

(** C4. Expiration: when the index holds an entry for the key of
    [(text, engine, voice_id, settings)] whose age at lookup exceeds
    [max_age_seconds], [get_cached_audio] returns [None] and the entry is
    gone from the index afterwards, all other entries being kept. *)
Theorem expired_entry_is_a_miss e text engine voice_id settings st entry :
  cache_wf st →
  let cache_key := _generate_cache_key text engine voice_id settings in
  dict_get cache_key (cache_index st) = Some entry →
  max_age_seconds st < time1 e - created_at entry →
  ∃ st', get_cached_audio e text engine voice_id settings st = (None, st') ∧
         dict_mem cache_key (cache_index st') = false ∧
         ∀ k, k ≠ cache_key →
              dict_get k (cache_index st') = dict_get k (cache_index st).
Proof.
  intros Hwf cache_key Hget Hold. unfold get_cached_audio.
  fold cache_key. rewrite Hget.
  assert (∀ d, cache_wf st → d = dict_del cache_key (cache_index st) →
            dict_mem cache_key d = false ∧
            ∀ k, k ≠ cache_key → dict_get k d = dict_get k (cache_index st))
    as Hdel.
  { intros d Hnd ->. split.
    - apply not_true_is_false. intros ?%dict_mem_keys.
      by eapply keys_dict_del_notin.
    - intros k Hk. by apply dict_get_del_ne. }
  destruct (cache_files st !! cache_key) eqn:Hfile.
  - assert ((time1 e - created_at entry >? max_age_seconds st) = true) as -> by lia.
    eexists. split; [done|]. apply Hdel; [done|]. apply remove_from_cache_index.
  - eexists. split; [done|]. by apply Hdel.
Qed.

(** C5, as amended. A failed payload write adds no index entry: whatever
    way the write fails, the index [cache_audio] leaves is the prior index
    with the entries evicted for space before the write taken out, nothing
    added and nothing altered; when no eviction was needed
    ([current size + len <= max_size_bytes]) the call returns and the index
    is unchanged. *)
Theorem failed_write_adds_no_entry e text engine voice_id settings audio_data st :
  write_outcome e ≠ WriteOk →
  let o := cache_audio e text engine voice_id settings audio_data st in
  sublist (cache_index (final_state o)) (cache_index st) ∧
  (_get_cache_size st + Z.of_nat (length audio_data) ≤ max_size_bytes st →
   returned o ∧ cache_index (final_state o) = cache_index st).
Proof.
  intros Hw o. subst o. rewrite cache_audio_unfold. simpl.
  pose proof (make_space_spec e (Z.of_nat (length audio_data)) st) as H.
  destruct (make_space _ _ _) as [st1|st1|]; [| |destruct H; lia].
  - destruct H as (_&Hsub&_&_&Hsame); [lia|].
    destruct (write_outcome e); [done| |]; simpl;
      (split; [done|]); intros ->%Hsame; done.
  - destruct H as (Hbig&Hidx&_); [lia|]. simpl. rewrite Hidx.
    split; [apply sublist_nil_l|].
    pose proof (get_cache_size_nonneg st). lia.
Qed.

(** An insertion that is too large for an empty cache raises at once and
    leaves the cache as it was. *)
Lemma cache_audio_oversize_empty e text engine voice_id settings audio_data st :
  cache_index st = [] →
  max_size_bytes st < Z.of_nat (length audio_data) →
  cache_audio e text engine voice_id settings audio_data st
  = Raised ValueError st.
Proof.
  intros Hidx Hbig. rewrite cache_audio_unfold. cbv zeta.
  unfold make_space, _remove_largest_entries.
  assert (_get_cache_size st = 0) as Hsz by (by rewrite get_cache_size_sum, Hidx).
  rewrite Hsz, Hidx. cbn [length].
  assert ((0 + Z.of_nat (length audio_data) >? max_size_bytes st) = true) as ->
    by lia.
  rewrite evict_loop_unfold, Hsz, Hidx.
  assert ((0 >? max_size_bytes st - Z.of_nat (length audio_data)) = true) as ->
    by lia.
  done.
Qed.

(** A cache holding a single payload that must go to make room, and a write
    that then fails: the call returns with an empty index. *)
Lemma cache_audio_evicts_then_fails
    e text engine voice_id settings audio_data st k en big :
  cache_index st = [(k, en)] →
  cache_files st !! k = Some big →
  max_size_bytes st < Z.of_nat (length big) + Z.of_nat (length audio_data) →
  Z.of_nat (length audio_data) ≤ max_size_bytes st →
  write_outcome e = OpenFails →
  let o := cache_audio e text engine voice_id settings audio_data st in
  returned o ∧ cache_index (final_state o) = [].
Proof.
  intros Hidx Hfile Hfull Hfit Hw o. subst o.
  rewrite cache_audio_unfold. cbv zeta.
  assert (_get_cache_size st = Z.of_nat (length big)) as Hsz.
  { rewrite get_cache_size_sum, Hidx. unfold keys. cbn [fmap list_fmap fst].
    rewrite sum_sizes_cons. unfold payload_size. rewrite Hfile.
    change (sum_sizes st []) with 0. lia. }
  set (len := Z.of_nat (length audio_data)) in *.
  set (st1 := remove_from_cache e k st).
  assert (cache_index st1 = []) as Hidx1.
  { unfold st1. rewrite remove_from_cache_index, Hidx. cbn [dict_del].
    by rewrite decide_True. }
  assert (make_space e len st = LoopDone st1) as ->.
  { unfold make_space, _remove_largest_entries. rewrite Hsz.
    assert ((Z.of_nat (length big) + len >? max_size_bytes st) = true) as -> by lia.
    rewrite Hidx. cbn [length]. rewrite evict_loop_unfold, Hsz, Hidx.
    assert ((Z.of_nat (length big) >? max_size_bytes st - len) = true) as -> by lia.
    unfold keys. cbn [fmap list_fmap fst py_max foldl]. fold st1.
    rewrite evict_loop_unfold, get_cache_size_sum, Hidx1.
    change (sum_sizes st1 (keys [])) with 0.
    by assert ((0 >? max_size_bytes st - len) = false) as -> by lia. }
  by rewrite Hw.
Qed.

End cache.

Arguments Returned {A} a st.
Arguments Raised {A} e st.

(** *** The repository's test scenarios, run on the model *)

(** Instances of the three library primitives for the concrete runs below;
    no statement depends on what they compute. *)
Definition repr_stub (f : float) : string := "1.0".
Definition escape_stub (s : string) : string := s.
Definition digest_stub (s : string) : string := s.

Definition key_of (text engine voice_id : string) (settings : pydict pyval) :=
  _generate_cache_key repr_stub escape_stub digest_stub text engine voice_id settings.

(** Everything succeeds, and both clock readings of the call are [t]. *)
Definition env_ok (t : Z) : env := Env t t (λ _, true) WriteOk true.

(** As [env_ok], but the payload cannot be opened for writing. *)
Definition env_write_fails (t : Z) : env := Env t t (λ _, true) OpenFails true.

(** The fixture of [tests/test_audio_cache.py]: an empty directory,
    [max_size_mb=10], [max_age_days=1]. *)
Definition audio_cache : cache := __init__ ∅ [] 10 1.

(** [b"test"] *)
Definition test_bytes : bytes := [Byte.x74; Byte.x65; Byte.x73; Byte.x74].

Definition settings_a : pydict pyval :=
  [("rate", PFloat 1%float); ("pitch", PFloat 1%float)].
Definition settings_b : pydict pyval :=
  [("pitch", PFloat 1%float); ("rate", PFloat 1%float)].

Lemma cache_key_insertion_order_irrelevant_witness :
  py_wf (PDict settings_a) ∧
  py_equiv (PDict settings_a) (PDict settings_b) ∧
  key_of "Hello, world!" "test_engine" "test_voice" settings_a
  = key_of "Hello, world!" "test_engine" "test_voice" settings_b.
Proof.
  assert (py_wf (PDict settings_a)) as Hwf.
  { split; [|done]. refine (bool_decide_unpack _ _). by vm_compute. }
  assert (py_equiv (PDict settings_a) (PDict settings_b)) as Heq.
  { apply (equiv_dict _ settings_a).
    - repeat constructor.
    - apply perm_swap. }
  split_and!; [done|done|].
  exact (cache_key_insertion_order_irrelevant repr_stub escape_stub digest_stub
           "Hello, world!" "test_engine" "test_voice" settings_a settings_b Hwf Heq).
Defined.

(** [test_cache_audio]: what was cached is what is read back. *)
Lemma cache_round_trip_witness :
  ∃ st', cache_then_get repr_stub escape_stub digest_stub
           (env_ok 1000) (env_ok 1001)
           "Hello, world!" "test_engine" "test_voice" settings_a test_bytes
           audio_cache
         = Returned (Some test_bytes) st'.
Proof.
  apply cache_round_trip.
  - by vm_compute.
  - done.
  - done.
  - by vm_compute.
Defined.

(** A payload of [n] bytes. *)
Definition payload_of_size (n : Z) : bytes := replicate (Z.to_nat n) Byte.x78.

Lemma payload_of_size_length n :
  0 ≤ n → Z.of_nat (length (payload_of_size n)) = n.
Proof. intros. unfold payload_of_size. rewrite length_replicate. lia. Qed.

(** C1, as stated, fails for a payload that is larger than the cache
    ([test_cache_size_limit]): the fixture given one byte more than its ten
    mebibytes raises [ValueError] instead of storing the payload and reading
    it back. *)
Lemma round_trip_oversize_raises :
  cache_then_get repr_stub escape_stub digest_stub (env_ok 1000) (env_ok 1001)
    "large" "test" "test" [] (payload_of_size (10 * 1024 * 1024 + 1))
    audio_cache
  = Raised ValueError audio_cache.
Proof.
  unfold cache_then_get.
  rewrite cache_audio_oversize_empty; [done|done|].
  rewrite payload_of_size_length by lia.
  change (max_size_bytes audio_cache) with (10 * 1024 * 1024). lia.
Qed.

(** [test_cache_size_limit]: the fixture and one byte more than its ten
    mebibytes. *)
Lemma oversize_insertion_never_returns_witness :
  ∃ st',
    cache_audio repr_stub escape_stub digest_stub (env_ok 1000)
      "large" "test" "test" [] (payload_of_size (10 * 1024 * 1024 + 1))
      audio_cache
    = Raised ValueError st' ∧
    ¬ returned (cache_audio repr_stub escape_stub digest_stub (env_ok 1000)
                  "large" "test" "test" []
                  (payload_of_size (10 * 1024 * 1024 + 1)) audio_cache) ∧
    cache_index st' = [] ∧
    max_size_bytes st' = max_size_bytes audio_cache.
Proof.
  apply oversize_insertion_never_returns.
  rewrite payload_of_size_length by lia.
  change (max_size_bytes audio_cache) with (10 * 1024 * 1024). lia.
Defined.

Lemma cache_audio_size_bound_witness :
  let o := cache_audio repr_stub escape_stub digest_stub (env_ok 1000)
             "test" "test" "test" [] test_bytes audio_cache in
  let s := get_cache_stats (env_ok 1001) (final_state o) in
  total_size_bytes s ≤ stats_max_size_bytes s ∧
  stats_max_size_bytes s = max_size_bytes audio_cache.
Proof.
  apply (cache_audio_size_bound repr_stub escape_stub digest_stub).
  - apply NoDup_nil_2.
  - right. by vm_compute.
Defined.

(** The state of [test_cache_expiration]: one entry whose [created_at] has
    been reset to the epoch. *)
Definition expired_cache : cache :=
  Cache {[key_of "test" "test" "test" [] := test_bytes]}
        (10 * 1024 * 1024) (1 * 24 * 60 * 60)
        [(key_of "test" "test" "test" [], Entry 0 1700000000 4 "test" "test")].

Lemma expired_entry_is_a_miss_witness :
  ∃ st', get_cached_audio repr_stub escape_stub digest_stub (env_ok 1700000001)
           "test" "test" "test" [] expired_cache = (None, st') ∧
         dict_mem (key_of "test" "test" "test" []) (cache_index st') = false ∧
         ∀ k, k ≠ key_of "test" "test" "test" [] →
              dict_get k (cache_index st') = dict_get k (cache_index expired_cache).
Proof.
  apply (expired_entry_is_a_miss repr_stub escape_stub digest_stub
           (env_ok 1700000001) "test" "test" "test" [] expired_cache
           (Entry 0 1700000000 4 "test" "test")).
  - refine (bool_decide_unpack _ _). by vm_compute.
  - by vm_compute.
  - by vm_compute.
Defined.

(** A cache of one mebibyte ([max_size_mb=1]) that is full: one entry of
    exactly that size, as [cache_audio] leaves it. *)
Definition full_cache : cache :=
  Cache {[key_of "a" "test" "test" [] := payload_of_size 1048576]}
        (1 * 1024 * 1024) (1 * 24 * 60 * 60)
        [(key_of "a" "test" "test" [], Entry 1000 1000 1048576 "test" "test")].

Lemma full_cache_reachable :
  cache_audio repr_stub escape_stub digest_stub (env_ok 1000)
    "a" "test" "test" [] (payload_of_size 1048576) (__init__ ∅ [] 1 1)
  = Returned (key_of "a" "test" "test" []) full_cache.
Proof.
  rewrite cache_audio_unfold. cbv zeta.
  rewrite payload_of_size_length by lia.
  assert (make_space (env_ok 1000) 1048576 (__init__ ∅ [] 1 1)
          = LoopDone (__init__ ∅ [] 1 1)) as -> by (by vm_compute).
  cbn [write_outcome env_ok]. unfold full_cache, __init__, set_index, set_files.
  cbn [cache_files cache_index max_size_bytes max_age_seconds dict_set time1 time2].
  by rewrite insert_empty.
Qed.

(** C5, as stated, fails when room had to be made: the failed write of one
    byte into the full cache leaves an index from which the old entry is
    gone. *)
Lemma failed_write_after_eviction :
  let o := cache_audio repr_stub escape_stub digest_stub (env_write_fails 2000)
             "b" "test" "test" [] [Byte.x78] full_cache in
  write_outcome (env_write_fails 2000) = OpenFails ∧
  cache_index full_cache
  = [(key_of "a" "test" "test" [], Entry 1000 1000 1048576 "test" "test")] ∧
  returned o ∧ cache_index (final_state o) = [].
Proof.
  split; [done|]. split; [done|].
  apply (cache_audio_evicts_then_fails repr_stub escape_stub digest_stub
           (env_write_fails 2000) "b" "test" "test" [] [Byte.x78] full_cache
           (key_of "a" "test" "test" [])
           (Entry 1000 1000 1048576 "test" "test") (payload_of_size 1048576)).
  - done.
  - apply lookup_singleton_eq.
  - rewrite payload_of_size_length by lia.
    change (max_size_bytes full_cache) with (1 * 1024 * 1024). cbn [length]. lia.
  - change (max_size_bytes full_cache) with (1 * 1024 * 1024). cbn [length]. lia.
  - done.
Qed.

Lemma failed_write_adds_no_entry_witness :
  let o := cache_audio repr_stub escape_stub digest_stub (env_write_fails 2000)
             "b" "test" "test" [] [Byte.x78] audio_cache in
  sublist (cache_index (final_state o)) (cache_index audio_cache) ∧
  (_get_cache_size audio_cache + Z.of_nat (length [Byte.x78])
   ≤ max_size_bytes audio_cache →
   returned o ∧ cache_index (final_state o) = cache_index audio_cache).
Proof.
  apply (failed_write_adds_no_entry repr_stub escape_stub digest_stub). done.
Defined.

End AudioCache.

(** * The ElevenLabs engine ([dist/engines/plugins/elevenlabs_engine.py]) *)

Module ElevenLabs.

(** The part of an [ElevenLabsEngine] that [configure] reads and writes.
    Of [_voice_cache], a dictionary from voice ids to voices, only the keys
    matter here. *)
Record engine := Engine {
  _speaking : bool;
  _paused : bool;
  _settings : pydict pyval;
  _voice_cache : gset string
}.

Definition set_settings (f : pydict pyval → pydict pyval) (eng : engine) : engine :=
  Engine (_speaking eng) (_paused eng) (f (_settings eng)) (_voice_cache eng).

(** [ElevenLabsEngine.__init__] *)
Definition __init__ : engine :=
  Engine false false
    [("voice_id", PStr "21m00Tcm4TlvDq8ikWAM");
     ("stability", PFloat 0.5%float);
     ("similarity_boost", PFloat 0.75%float);
     ("style", PFloat 0%float);
     ("use_speaker_boost", PBool true);
     ("model_id", PStr "eleven_monolingual_v1")]
    ∅.

(** The keys [__init__] puts into [_settings]. *)
Definition recognized : list string :=
  ["voice_id"; "stability"; "similarity_boost"; "style"; "use_speaker_boost";
   "model_id"].

(** The settings [configure] keeps between 0 and 1. *)
Definition unit_settings : list string := ["stability"; "similarity_boost"; "style"].

(** Why a value is refused.  Every one of them reaches the caller as a
    [TTSEngineError]: the check raises it inside the [try], the handler
    catches it (or the [TypeError] of a comparison) and raises a
    [TTSEngineError] again. *)
Inductive cause :=
  | InvalidVoiceId
  | MustBeBetween0And1 (key : string)
  | MustBeBoolean
  | TypeError.

Inductive exn := TTSEngineError (why : cause).

Inductive outcome :=
  | Returned (eng : engine)
  | Raised (x : exn) (eng : engine).

Definition final_state (o : outcome) : engine :=
  match o with Returned eng | Raised _ eng => eng end.

(** [value in self._voice_cache]; [None] is the [TypeError] of an
    unhashable value. *)
Definition in_voice_cache (voices : gset string) (value : pyval) : option bool :=
  match value with
  | PStr s => Some (bool_decide (s ∈ voices))
  | PList _ | PDict _ => None
  | _ => Some false
  end.

(** [0 <= value <= 1]; [None] is the [TypeError] of comparing a number with
    something that is not one. *)
Definition between_0_and_1 (value : pyval) : option bool :=
  match value with
  | PBool _ => Some true
  | PInt z => Some ((0 <=? z) && (z <=? 1))
  | PFloat f => Some (PrimFloat.leb 0%float f && PrimFloat.leb f 1%float)
  | _ => None
  end.

(** [isinstance(value, bool)] *)
Definition is_bool (value : pyval) : bool :=
  match value with PBool _ => true | _ => false end.

(** The three checks of the loop body, in order; [None] when all pass. *)
Definition check (eng : engine) (key : string) (value : pyval) : option cause :=
  let voice :=
    if bool_decide (key = "voice_id") then
      match in_voice_cache (_voice_cache eng) value with
      | None => Some TypeError
      | Some false => Some InvalidVoiceId
      | Some true => None
      end
    else None in
  let range :=
    if bool_decide (key ∈ unit_settings) then
      match between_0_and_1 value with
      | None => Some TypeError
      | Some false => Some (MustBeBetween0And1 key)
      | Some true => None
      end
    else None in
  let boost :=
    if bool_decide (key = "use_speaker_boost") && negb (is_bool value)
    then Some MustBeBoolean else None in
  match voice, range, boost with
  | Some c, _, _ => Some c
  | None, Some c, _ => Some c
  | None, None, b => b
  end.

(** [configure]: the loop over [settings.items()]. *)
Fixpoint configure (settings : pydict pyval) (eng : engine) : outcome :=
  match settings with
  | [] => Returned eng
  | (key, value) :: rest =>
      if dict_mem key (_settings eng) then
        match check eng key value with
        | Some why => Raised (TTSEngineError why) eng
        | None => configure rest (set_settings (dict_set key value) eng)
        end
      else configure rest eng
  end.

(** [_update_voice_cache] replaces the voices by what the service lists,
    [cleanup] clears them; [speak], [pause], [resume] and [stop] set the two
    flags. *)
Definition set_voices (voices : gset string) (eng : engine) : engine :=
  Engine (_speaking eng) (_paused eng) (_settings eng) voices.

Definition set_flags (speaking paused : bool) (eng : engine) : engine :=
  Engine speaking paused (_settings eng) (_voice_cache eng).

(** The engines a program can hold. *)
Inductive reachable : engine → Prop :=
  | reach_init : reachable __init__
  | reach_configure settings eng :
      reachable eng → reachable (final_state (configure settings eng))
  | reach_voices voices eng : reachable eng → reachable (set_voices voices eng)
  | reach_flags speaking paused eng :
      reachable eng → reachable (set_flags speaking paused eng).

(** ** Properties *)

Lemma configure_keys settings eng :
  keys (_settings (final_state (configure settings eng))) = keys (_settings eng).
Proof.
  revert eng. induction settings as [|[key value] rest IH]; intros eng; simpl; [done|].
  destruct (dict_mem key (_settings eng)) eqn:Hmem; [|apply IH].
  destruct (check eng key value); [done|].
  rewrite IH. simpl. apply keys_dict_set_mem. by apply dict_mem_keys.
Qed.

(** [configure] never adds or removes a key: the settings of every engine
    have exactly the six keys of [__init__]. *)
Lemma reachable_keys eng : reachable eng → keys (_settings eng) = recognized.
Proof.
  induction 1 as [|settings eng _ IH| |]; try done.
  by rewrite configure_keys.
Qed.

Lemma dict_mem_recognized eng key :
  keys (_settings eng) = recognized →
  dict_mem key (_settings eng) = bool_decide (key ∈ recognized).
Proof.
  intros Hk. apply eq_true_iff_eq. rewrite dict_mem_keys, Hk.
  by rewrite bool_decide_eq_true.
Qed.




Lemma configure_unrecognized settings eng :
  Forall (λ k, dict_mem k (_settings eng) = false) (keys settings) →
  configure settings eng = Returned eng.
Proof.
  unfold keys. induction settings as [|[k v] rest IH]; simpl; [done|].
  intros [Hk Hrest]%Forall_cons. rewrite Hk. by apply IH.
Qed.


(** C10. Unknown keys are dropped silently: when no key of the settings map
    is one of the six recognized ones, [configure] returns without raising
    and the engine, its stored settings included, is exactly as before. *)
Theorem configure_unknown_keys settings eng :
  reachable eng →
  Forall (λ k, k ∉ recognized) (keys settings) →
  configure settings eng = Returned eng.
Proof.
  intros Hreach Hunk. apply configure_unrecognized.
  eapply Forall_impl; [exact Hunk|]. intros k Hk. simpl in Hk.
  rewrite (dict_mem_recognized eng k (reachable_keys eng Hreach)).
  by apply bool_decide_eq_false_2.
Qed.

(** ** The scenarios of the specification *)


Lemma stability_alone_leaves_engine :
  configure [("stability", PFloat 1.5%float)] __init__
  = Raised (TTSEngineError (MustBeBetween0And1 "stability")) __init__.
Proof. by vm_compute. Qed.


Lemma configure_unknown_keys_witness :
  configure [("speed", PFloat 2%float); ("volume", PInt 11)] __init__
  = Returned __init__.
Proof.
  apply configure_unknown_keys.
  - apply reach_init.
  - refine (bool_decide_unpack _ _). by vm_compute.
Defined.

End ElevenLabs.

(** * The engine factories *)

(** An engine class, as far as a factory looks at it: its name and whether
    it is a subclass of [TTSEngineInterface]. *)
Record engine_class := EngineClass {
  class_name : string;
  implements_interface : bool
}.

#[global] Instance engine_class_eq_dec : EqDecision engine_class.
Proof. solve_decision. Defined.

(** Engine instances are objects with an identity: an instance is the
    address the allocator gave it, and the heap records its class. *)
Definition instance := nat.

(** ** [dist/engines/tts_factory.py]: the registry with memoized instances *)

Module TTSFactory.

Record factory := Factory {
  _engines : gmap string instance;
  _engine_classes : gmap string engine_class;
  heap : list engine_class          (* the instances created so far *)
}.

Definition PyTTSx3Engine : engine_class := EngineClass "PyTTSx3Engine" true.

(** [__init__], with the plugins that [_load_plugins] managed to import, in
    the order it found them: each one sets [_engine_classes[name]]. *)
Definition __init__ (plugins : list (string * engine_class)) : factory :=
  Factory ∅
    (foldl (λ classes p, <[p.1 := p.2]> classes) {["pyttsx3" := PyTTSx3Engine]}
       plugins)
    [].

(** [get_engine].  [ctor_raises] says whether [engine_class()] raises in
    this call; the handler turns that into [None]. *)
Definition get_engine (ctor_raises : bool) (engine_name : string) (f : factory)
    : option instance * factory :=
  match _engines f !! engine_name with
  | Some engine => (Some engine, f)
  | None =>
      match _engine_classes f !! engine_name with
      | None => (None, f)
      | Some engine_class =>
          if ctor_raises then (None, f)
          else
            let engine := length (heap f) in
            (Some engine,
             Factory (<[engine_name := engine]> (_engines f))
                     (_engine_classes f)
                     (heap f ++ [engine_class]))
      end
  end.

(** [register_engine] *)
Definition register_engine (engine_name : string) (c : engine_class) (f : factory)
    : factory :=
  if implements_interface c
  then Factory (_engines f) (<[engine_name := c]> (_engine_classes f)) (heap f)
  else f.

(** [unregister_engine] *)
Definition unregister_engine (engine_name : string) (f : factory) : factory :=
  match _engine_classes f !! engine_name with
  | Some _ =>
      Factory (delete engine_name (_engines f))
              (delete engine_name (_engine_classes f)) (heap f)
  | None => f
  end.

(** [cleanup].  [engine_cleanup_raises] says whether the [cleanup()] of one
    of the memoized engines raises in this call: the handler then logs the
    error, and [self._engines.clear()] is not reached. *)
Definition cleanup (engine_cleanup_raises : bool) (f : factory) : factory :=
  if engine_cleanup_raises then f
  else Factory ∅ (_engine_classes f) (heap f).

(** The factories a program can hold. *)
Inductive reachable : factory → Prop :=
  | reach_init plugins : reachable (__init__ plugins)
  | reach_get r name f : reachable f → reachable (get_engine r name f).2
  | reach_register name c f : reachable f → reachable (register_engine name c f)
  | reach_unregister name f : reachable f → reachable (unregister_engine name f)
  | reach_cleanup r f : reachable f → reachable (cleanup r f).

(** The calls a program makes on a factory, and a run of them. *)
Inductive call :=
  | GetEngine (ctor_raises : bool) (engine_name : string)
  | RegisterEngine (engine_name : string) (c : engine_class)
  | UnregisterEngine (engine_name : string)
  | Cleanup (engine_cleanup_raises : bool).

Definition run_call (c : call) (f : factory) : factory :=
  match c with
  | GetEngine r engine_name => (get_engine r engine_name f).2
  | RegisterEngine engine_name c => register_engine engine_name c f
  | UnregisterEngine engine_name => unregister_engine engine_name f
  | Cleanup r => cleanup r f
  end.

Fixpoint run_calls (calls : list call) (f : factory) : factory :=
  match calls with
  | [] => f
  | c :: calls' => run_calls calls' (run_call c f)
  end.

(** The calls that leave the instance of [name] where it is: all but
    [unregister_engine(name)] and a [cleanup()] that gets as far as clearing
    the instances. *)
Definition keeps_instance_of (name : string) (c : call) : Prop :=
  match c with
  | UnregisterEngine engine_name => engine_name ≠ name
  | Cleanup r => r = true
  | GetEngine _ _ | RegisterEngine _ _ => True
  end.

(** ** Properties *)

(** Only registered names have an instance. *)
Lemma reachable_engines_registered f name :
  reachable f → is_Some (_engines f !! name) → is_Some (_engine_classes f !! name).
Proof.
  intros Hr. revert name.
  induction Hr as [plugins|r n f _ IH|n c f _ IH|n f _ IH|r f _ IH]; intros name.
  - simpl. rewrite lookup_empty. by intros [? ?].
  - unfold get_engine.
    destruct (_engines f !! n) eqn:He; [apply IH|].
    destruct (_engine_classes f !! n) eqn:Hc; [|apply IH].
    destruct r; [apply IH|]. simpl.
    destruct (decide (n = name)) as [->|Hne].
    + by rewrite Hc.
    + rewrite lookup_insert_ne by done. apply IH.
  - unfold register_engine. destruct (implements_interface c); [|apply IH]. simpl.
    intros H%IH. destruct (decide (n = name)) as [->|Hne].
    + by rewrite lookup_insert_eq.
    + by rewrite lookup_insert_ne.
  - unfold unregister_engine. destruct (_engine_classes f !! n) eqn:Hc; [|apply IH].
    simpl. destruct (decide (n = name)) as [->|Hne].
    + rewrite lookup_delete_eq. by intros [? ?].
    + rewrite !lookup_delete_ne by done. apply IH.
  - destruct r; [apply IH|]. simpl. rewrite lookup_empty. by intros [? ?].
Qed.

(** Once memoized, an instance stays: [get_engine] never replaces one. *)
Lemma get_engine_keeps r name' f name engine :
  _engines f !! name = Some engine →
  _engines (get_engine r name' f).2 !! name = Some engine.
Proof.
  intros He. unfold get_engine.
  destruct (_engines f !! name') eqn:He'; [done|].
  destruct (_engine_classes f !! name'); [|done].
  destruct r; [done|]. simpl.
  rewrite lookup_insert_ne; [done|]. intros ->. congruence.
Qed.

Lemma run_call_keeps c f name engine :
  keeps_instance_of name c →
  _engines f !! name = Some engine →
  _engines (run_call c f) !! name = Some engine.
Proof.
  destruct c as [r n|n c|n|r]; simpl; intros Hkeeps He.
  - by apply get_engine_keeps.
  - unfold register_engine. by destruct (implements_interface c).
  - unfold unregister_engine. destruct (_engine_classes f !! n); [|done].
    simpl. by rewrite lookup_delete_ne.
  - by rewrite Hkeeps.
Qed.

Lemma run_calls_keeps calls f name engine :
  Forall (keeps_instance_of name) calls →
  _engines f !! name = Some engine →
  _engines (run_calls calls f) !! name = Some engine.
Proof.
  revert f. induction calls as [|c calls IH]; intros f Hkeeps He; simpl; [done|].
  apply Forall_cons in Hkeeps as [Hc Hkeeps].
  by apply IH, run_call_keeps.
Qed.

Lemma get_engine_memoized r name f engine :
  _engines f !! name = Some engine → get_engine r name f = (Some engine, f).
Proof. intros He. unfold get_engine. by rewrite He. Qed.

(** A constructor that raises yields [None] for a registered name, and
    nothing is memoized. *)
Lemma get_engine_ctor_raises f name :
  _engines f !! name = None → get_engine true name f = (None, f).
Proof.
  intros He. unfold get_engine. rewrite He.
  by destruct (_engine_classes f !! name).
Qed.

End TTSFactory.

(** ** [engines/factory.py]: a factory that builds a new instance per call *)

Module EnginesFactory.

Record factory := Factory {
  _engines : gmap string engine_class;
  heap : list engine_class
}.

Inductive exn := ValueError | ConstructorError.

Inductive outcome :=
  | Returned (engine : instance) (f : factory)
  | Raised (x : exn) (f : factory).

Definition __init__ : factory :=
  Factory (<["azure-tts" := EngineClass "AzureTTSEngine" true]>
          (<["elevenlabs" := EngineClass "ElevenLabsEngine" true]>
          (<["edge-tts" := EngineClass "EdgeTTSEngine" true]> ∅)))
          [].

(** [get_engine]: no instance is kept, and an unsupported type is an
    error, not [None]. *)
Definition get_engine (ctor_raises : bool) (engine_type : string) (f : factory)
    : outcome :=
  match _engines f !! engine_type with
  | None => Raised ValueError f
  | Some engine_class =>
      if ctor_raises then Raised ConstructorError f
      else Returned (length (heap f))
                    (Factory (_engines f) (heap f ++ [engine_class]))
  end.

(** [register_engine] *)
Definition register_engine (engine_type : string) (c : engine_class) (f : factory)
    : factory :=
  Factory (<[engine_type := c]> (_engines f)) (heap f).

(** C7, as stated, fails for this factory: two calls for one registered
    name give two different instances, and a name that is not registered
    raises [ValueError]. *)
Lemma get_engine_not_memoized :
  (∃ f1 f2,
     get_engine false "edge-tts" __init__ = Returned 0%nat f1 ∧
     get_engine false "edge-tts" f1 = Returned 1%nat f2) ∧
  get_engine false "espeak" __init__ = Raised ValueError __init__.
Proof. split; [eexists _, _; split|]; by vm_compute. Qed.

(** Every successful call returns an instance that did not exist before. *)
Lemma get_engine_fresh r engine_type f engine f' :
  get_engine r engine_type f = Returned engine f' →
  engine = length (heap f) ∧ length (heap f') = S (length (heap f)).
Proof.
  unfold get_engine. destruct (_engines f !! engine_type); [|done].
  destruct r; [done|]. intros [= <- <-]. simpl.
  rewrite length_app. simpl. split; [done|lia].
Qed.

End EnginesFactory.

(** ** Lookup in the two factories *)

Module Lookup.
Import TTSFactory.

(** C7, as amended.  In the registry of [dist/engines/tts_factory.py], for a
    registered name whose class can be instantiated [get_engine] returns an
    instance, and every later [get_engine] of that name returns that same
    instance without changing the registry, whatever lookups, registrations
    and removals of other names come in between, for as long as the name is
    not unregistered and no [cleanup] clears the instances.  For a name that
    is not registered it returns [None]; when the constructor raises it
    returns [None] and memoizes nothing.  The factory of [engines/factory.py]
    keeps no instance: two calls for one of its types return two different
    objects, and a type it does not have raises [ValueError]. *)
Theorem get_engine_singleton f :
  reachable f →
  (∀ name,
     is_Some (_engine_classes f !! name) →
     ∃ engine f1,
       get_engine false name f = (Some engine, f1) ∧
       ∀ calls,
         Forall (keeps_instance_of name) calls →
         ∀ r, get_engine r name (run_calls calls f1)
              = (Some engine, run_calls calls f1)) ∧
  (∀ name,
     _engine_classes f !! name = None →
     ∀ r, get_engine r name f = (None, f)) ∧
  (∀ name,
     _engines f !! name = None →
     get_engine true name f = (None, f)) ∧
  (∀ g engine_type,
     match EnginesFactory._engines g !! engine_type with
     | Some _ =>
         ∃ first g1 second g2,
           EnginesFactory.get_engine false engine_type g
           = EnginesFactory.Returned first g1 ∧
           EnginesFactory.get_engine false engine_type g1
           = EnginesFactory.Returned second g2 ∧
           first ≠ second
     | None =>
         ∀ r, EnginesFactory.get_engine r engine_type g
              = EnginesFactory.Raised EnginesFactory.ValueError g
     end).
Proof.
  intros Hr. split_and!; intros name.
  - intros [c Hc].
    assert (∃ engine f1, get_engine false name f = (Some engine, f1) ∧
                         _engines f1 !! name = Some engine)
      as (engine & f1 & Hget & He).
    { unfold get_engine. destruct (_engines f !! name) eqn:He; [by eauto|].
      rewrite Hc. eexists _, _. split; [done|]. simpl. apply lookup_insert_eq. }
    exists engine, f1. split; [done|]. intros calls Hkeeps r.
    by apply get_engine_memoized, run_calls_keeps.
  - intros Hc r. unfold get_engine.
    destruct (_engines f !! name) eqn:He; [|by rewrite Hc].
    destruct (reachable_engines_registered f name Hr) as [c Hc']; [by eauto|].
    congruence.
  - apply get_engine_ctor_raises.
  - intros engine_type. unfold EnginesFactory.get_engine.
    destruct (EnginesFactory._engines name !! engine_type) as [c|] eqn:Hc;
      [|done].
    eexists _, _, _, _. split; [done|]. simpl. rewrite Hc. split; [done|].
    rewrite length_app. simpl. lia.
Qed.

(** The registry as [__init__] leaves it, without plugins. *)
Lemma get_engine_singleton_witness :
  (∀ name,
     is_Some (_engine_classes (__init__ []) !! name) →
     ∃ engine f1,
       get_engine false name (__init__ []) = (Some engine, f1) ∧
       ∀ calls,
         Forall (keeps_instance_of name) calls →
         ∀ r, get_engine r name (run_calls calls f1)
              = (Some engine, run_calls calls f1)) ∧
  (∀ name,
     _engine_classes (__init__ []) !! name = None →
     ∀ r, get_engine r name (__init__ []) = (None, __init__ [])) ∧
  (∀ name,
     _engines (__init__ []) !! name = None →
     get_engine true name (__init__ []) = (None, __init__ [])) ∧
  (∀ g engine_type,
     match EnginesFactory._engines g !! engine_type with
     | Some _ =>
         ∃ first g1 second g2,
           EnginesFactory.get_engine false engine_type g
           = EnginesFactory.Returned first g1 ∧
           EnginesFactory.get_engine false engine_type g1
           = EnginesFactory.Returned second g2 ∧
           first ≠ second
     | None =>
         ∀ r, EnginesFactory.get_engine r engine_type g
              = EnginesFactory.Raised EnginesFactory.ValueError g
     end).
Proof. exact (get_engine_singleton (__init__ []) (reach_init [])). Defined.

(** The scenario of the specification on that registry: [pyttsx3] twice,
    with a lookup of another name and a registration in between, and a name
    that is not registered. *)
Lemma get_engine_twice :
  let f1 := (get_engine false "pyttsx3" (__init__ [])).2 in
  let f2 := run_calls [GetEngine false "espeak";
                       RegisterEngine "espeak" (EngineClass "ESpeak" true);
                       GetEngine false "espeak"] f1 in
  get_engine false "pyttsx3" (__init__ []) = (Some 0%nat, f1) ∧
  get_engine false "pyttsx3" f2 = (Some 0%nat, f2) ∧
  get_engine false "espeak" (__init__ []) = (None, __init__ []).
Proof. split_and!; by vm_compute. Qed.

(** Not through a [cleanup]: the lookup after it gives a new instance. *)
Lemma get_engine_after_cleanup :
  let f1 := (get_engine false "pyttsx3" (__init__ [])).2 in
  get_engine false "pyttsx3" (__init__ []) = (Some 0%nat, f1) ∧
  (get_engine false "pyttsx3" (cleanup false f1)).1 = Some 1%nat.
Proof. split; by vm_compute. Qed.

End Lookup.

(** * The time-domain effect chain ([utils/advanced_audio_processor.py]) *)

Module AudioEffects.

Section pipeline.
(** The signal type and the eight stages are those of NumPy, SciPy and
    librosa; the chain only sequences them.  A stage either produces a signal
    or raises. *)
Context {audio error : Type}.

Inductive result :=
  | Done (a : audio)
  | Failed (x : error).

Definition bind (r : result) (k : audio → result) : result :=
  match r with
  | Done a => k a
  | Failed x => Failed x
  end.

Context (_reduce_noise : audio → result)
        (_apply_eq _apply_compression _apply_reverb _apply_echo
         _shift_pitch _stretch_time _adjust_stereo_width
           : audio → pyval → result).

(** [if effects.get(key): audio = f(audio, effects[key])] *)
Definition stage (effects : pydict pyval) (key : string)
    (f : audio → pyval → result) (a : audio) : result :=
  match dict_get key effects with
  | Some params => if truthy params then f a params else Done a
  | None => Done a
  end.

(** [_apply_effects] *)
Definition _apply_effects (a : audio) (effects : pydict pyval) : result :=
  bind (stage effects "noise_reduction" (λ a _, _reduce_noise a) a) (λ a,
  bind (stage effects "equalization" _apply_eq a) (λ a,
  bind (stage effects "compression" _apply_compression a) (λ a,
  bind (stage effects "reverb" _apply_reverb a) (λ a,
  bind (stage effects "echo" _apply_echo a) (λ a,
  bind (stage effects "pitch_shift" _shift_pitch a) (λ a,
  bind (stage effects "time_stretch" _stretch_time a) (λ a,
  stage effects "stereo_width" _adjust_stereo_width a))))))).

(** ** Properties *)

Lemma stage_enabled effects key f a params :
  dict_get key effects = Some params → truthy params = true →
  stage effects key f a = f a params.
Proof. intros Hget Ht. unfold stage. by rewrite Hget, Ht. Qed.

Lemma stage_absent effects key f a :
  dict_get key effects = None → stage effects key f a = Done a.
Proof. intros Hget. unfold stage. by rewrite Hget. Qed.

Lemma bind_Done a k : bind (Done a) k = k a.
Proof. done. Qed.

Lemma bind_id r : bind r Done = r.
Proof. by destruct r. Qed.

(** The chain reads the map by key only, so the order of its entries is
    irrelevant. *)
Lemma dict_get_Permutation {V} (d d' : pydict V) k :
  NoDup (keys d) → d ≡ₚ d' → dict_get k d = dict_get k d'.
Proof.
  intros Hnd Hp.
  assert (NoDup (keys d')) as Hnd'.
  { unfold keys in *. by rewrite <- Hp. }
  destruct (dict_get k d) as [v|] eqn:Hget.
  - symmetry. apply dict_get_elem_of; [done|]. rewrite <- Hp. by apply dict_get_Some.
  - symmetry. apply dict_get_None. apply dict_get_None in Hget.
    unfold keys in *. by rewrite <- Hp.
Qed.

Lemma apply_effects_Permutation a effects effects' :
  NoDup (keys effects) → effects ≡ₚ effects' →
  _apply_effects a effects = _apply_effects a effects'.
Proof.
  intros Hnd Hp. unfold _apply_effects, stage.
  by rewrite !(dict_get_Permutation effects effects' _ Hnd Hp).
Qed.

(** C8, as amended. Effect-chain ordering: for a map whose entries are an
    [equalization] entry and a [compression] entry, in either order, each
    with parameters that enable its stage (a non-empty parameter map), the
    chain gives what applying the EQ stage and then the compression stage to
    its result gives; if the EQ stage raises, so does the chain. *)
Theorem eq_then_compression a effects eq_params compression_params :
  effects ≡ₚ [("equalization", eq_params); ("compression", compression_params)] →
  truthy eq_params = true →
  truthy compression_params = true →
  _apply_effects a effects
  = bind (_apply_eq a eq_params) (λ a', _apply_compression a' compression_params).
Proof.
  intros Hp Heq Hc.
  rewrite (apply_effects_Permutation a effects
             [("equalization", eq_params); ("compression", compression_params)]).
  - unfold _apply_effects.
    rewrite (stage_absent _ "noise_reduction") by done. rewrite bind_Done.
    rewrite (stage_enabled _ "equalization" _ _ eq_params) by done.
    destruct (_apply_eq a eq_params) as [a'|x]; [|done]. cbn [bind].
    rewrite (stage_enabled _ "compression" _ _ compression_params) by done.
    destruct (_apply_compression a' compression_params) as [a''|x]; [|done].
    cbn [bind].
    by rewrite !stage_absent.
  - unfold keys. rewrite Hp. refine (bool_decide_unpack _ _). by vm_compute.
  - done.
Qed.

(** The same with the other six stages present but switched off, or with
    keys the chain does not know. *)
Lemma fixed_sequence_among_other_entries a effects eq_params compression_params :
  dict_get "equalization" effects = Some eq_params →
  truthy eq_params = true →
  dict_get "compression" effects = Some compression_params →
  truthy compression_params = true →
  Forall (λ k, enabled k effects = false)
    ["noise_reduction"; "reverb"; "echo"; "pitch_shift"; "time_stretch";
     "stereo_width"] →
  _apply_effects a effects
  = bind (_apply_eq a eq_params) (λ a', _apply_compression a' compression_params).
Proof.
  intros Hge Hte Hgc Htc Hoff.
  assert (∀ k f x, enabled k effects = false → stage effects k f x = Done x)
    as Hstage.
  { intros k f x. unfold enabled, stage.
    destruct (dict_get k effects); [by intros ->|done]. }
  repeat (apply Forall_cons in Hoff as [? Hoff]).
  unfold _apply_effects.
  rewrite (Hstage "noise_reduction") by done. rewrite bind_Done.
  rewrite (stage_enabled _ "equalization" _ _ eq_params) by done.
  destruct (_apply_eq a eq_params) as [a'|x]; [|done]. cbn [bind].
  rewrite (stage_enabled _ "compression" _ _ compression_params) by done.
  destruct (_apply_compression a' compression_params) as [a''|x]; [|done].
  cbn [bind].
  rewrite (Hstage "reverb") by done. cbn [bind].
  rewrite (Hstage "echo") by done. cbn [bind].
  rewrite (Hstage "pitch_shift") by done. cbn [bind].
  rewrite (Hstage "time_stretch") by done. cbn [bind].
  by rewrite (Hstage "stereo_width").
Qed.

(** An entry with empty parameters does not enable its stage. *)
Lemma empty_parameters_skip_stage a eq_params :
  truthy eq_params = true →
  _apply_effects a [("equalization", eq_params); ("compression", PDict [])]
  = _apply_eq a eq_params.
Proof.
  intros Heq. unfold _apply_effects.
  rewrite (stage_absent _ "noise_reduction") by done. rewrite bind_Done.
  rewrite (stage_enabled _ "equalization" _ _ eq_params) by done.
  destruct (_apply_eq a eq_params) as [a'|x]; [|done]. cbn [bind].
  unfold stage. by cbn.
Qed.

End pipeline.

(** ** An instance: stages that log their name *)

(** With a signal that is the list of the stages it went through, the chain
    shows its order. *)
Definition log_stage (name : string) (a : list string) (_ : pyval)
    : @result (list string) unit :=
  Done (a ++ [name]).

Definition logged_effects : list string → pydict pyval → @result (list string) unit :=
  _apply_effects (λ a, log_stage "noise_reduction" a PNone)
    (log_stage "equalization") (log_stage "compression") (log_stage "reverb")
    (log_stage "echo") (log_stage "pitch_shift") (log_stage "time_stretch")
    (log_stage "stereo_width").

Lemma eq_then_compression_witness :
  logged_effects []
    [("compression", PDict [("ratio", PFloat 4%float)]);
     ("equalization", PDict [("bands", PList [])])]
  = bind (log_stage "equalization" [] (PDict [("bands", PList [])]))
         (λ a', log_stage "compression" a' (PDict [("ratio", PFloat 4%float)])).
Proof.
  apply (eq_then_compression (λ a, log_stage "noise_reduction" a PNone)).
  - apply perm_swap.
  - done.
  - done.
Defined.

(** C8, as stated, fails for an entry whose parameter map is empty:
    [{"equalization": {"bands": []}, "compression": {}}] runs the EQ stage
    only, while applying EQ and then compression by hand, with [{}] as the
    compression parameters (every one of which has a default), runs both. *)
Lemma empty_compression_entry_is_skipped :
  let effects :=
    [("equalization", PDict [("bands", PList [])]); ("compression", PDict [])] in
  logged_effects [] effects = Done ["equalization"] ∧
  bind (log_stage "equalization" [] (PDict [("bands", PList [])]))
       (λ a', log_stage "compression" a' (PDict []))
  = Done ["equalization"; "compression"] ∧
  logged_effects [] effects
  ≠ bind (log_stage "equalization" [] (PDict [("bands", PList [])]))
         (λ a', log_stage "compression" a' (PDict [])).
Proof. by split_and!; vm_compute. Qed.

End AudioEffects.

(** * Harmonic enhancement ([utils/spectral_processor.py]) *)

Module Spectral.

Section harmonics.
(** A complex spectrogram is a matrix of bins, one row per frequency and one
    column per frame; magnitudes and phases are floats.  [np.abs], [np.angle]
    and [m * np.exp(1j * p)] are NumPy's. *)
Context {complex : Type}
        (np_abs : complex → float)
        (np_angle : complex → float)
        (polar : float → float → complex)
        (float_of_int : Z → float).

Abbreviation matrix A := (list (list A)).

Inductive exn := ValueError | TypeError.

Inductive result (A : Type) :=
  | Done (a : A)
  | Raised (x : exn).
Arguments Done {A} a.
Arguments Raised {A} x.

(** [bool(row)] for a one-dimensional boolean array: the element of an
    array of one, [False] for an empty one, and a [ValueError] ("the truth
    value of an array with more than one element is ambiguous") otherwise. *)
Definition truth_value (row : list bool) : result bool :=
  match row with
  | [] => Done false
  | [b] => Done b
  | _ :: _ :: _ => Raised ValueError
  end.

(** [x and y], which asks for [bool(x)] first and for [y] only when it is
    true. *)
Definition and_then (x : result bool) (y : result bool) : result bool :=
  match x with
  | Done true => y
  | Done false => Done false
  | Raised e => Raised e
  end.

(** [row > other], element by element. *)
Definition row_gt (row other : list float) : list bool :=
  zip_with PrimFloat.ltb other row.

(** [row > threshold], the scalar broadcast. *)
Definition row_gt_scalar (row : list float) (threshold : float) : list bool :=
  (λ x, PrimFloat.ltb threshold x) <$> row.

(** The condition of the loop body of [_find_harmonic_peaks] at index [i]
    (rows out of range do not occur for [1 <= i < shape[0] - 1]). *)
Definition is_peak (magnitude : matrix float) (threshold : float) (i : nat)
    : result bool :=
  match magnitude !! (i - 1)%nat, magnitude !! i, magnitude !! (i + 1)%nat with
  | Some below, Some row, Some above =>
      and_then (truth_value (row_gt row below))
        (and_then (truth_value (row_gt row above))
                  (truth_value (row_gt_scalar row threshold)))
  | _, _, _ => Done false
  end.

(** [_find_harmonic_peaks]: the loop over [range(1, magnitude.shape[0]-1)]. *)
Fixpoint find_peaks_from (magnitude : matrix float) (threshold : float)
    (indices : list nat) (peaks : list nat) : result (list nat) :=
  match indices with
  | [] => Done peaks
  | i :: rest =>
      match is_peak magnitude threshold i with
      | Raised e => Raised e
      | Done b =>
          find_peaks_from magnitude threshold rest
            (if b then peaks ++ [i] else peaks)
      end
  end.

Definition _find_harmonic_peaks (magnitude : matrix float) (threshold : float)
    : result (list nat) :=
  find_peaks_from magnitude threshold (seq 1 (length magnitude - 2)) [].

(** [params.get(key, default)] for a numeric parameter; [None] when the
    value is not a number, which makes the arithmetic that uses it raise
    [TypeError].  The code raises where the value is first used and not at
    all if it never is, while [_enhance_harmonics] below raises at once: it
    follows the code for numeric parameters, which is what the statements
    about it assume. *)
Definition get_number (params : pydict pyval) (key : string) (default : float)
    : option float :=
  match dict_get key params with
  | None => Some default
  | Some (PFloat f) => Some f
  | Some (PInt z) => Some (float_of_int z)
  | Some (PBool b) => Some (float_of_int (if b then 1 else 0))
  | Some _ => None
  end.

(** [magnitude_enhanced[peak] *= enhancement]: the whole row of the peak. *)
Definition scale_row (enhancement : float) (peak : nat) (m : matrix float)
    : matrix float :=
  alter (fmap (λ x, PrimFloat.mul x enhancement)) peak m.

(** [_enhance_harmonics] *)
Definition _enhance_harmonics (D : matrix complex) (params : pydict pyval)
    : result (matrix complex) :=
  match get_number params "enhancement" 1.5%float,
        get_number params "threshold" 0.1%float with
  | Some enhancement, Some threshold =>
      let magnitude : matrix float := fmap (M:=list) np_abs <$> D in
      let phase : matrix float := fmap (M:=list) np_angle <$> D in
      match _find_harmonic_peaks magnitude threshold with
      | Raised e => Raised e
      | Done peaks =>
          let magnitude_enhanced := foldl (λ m peak, scale_row enhancement peak m)
                                          magnitude peaks in
          Done (zip_with (zip_with polar) magnitude_enhanced phase)
      end
  | _, _ => Raised TypeError
  end.

(** ** Properties *)

Lemma truth_value_ambiguous row :
  (2 ≤ length row)%nat → truth_value row = Raised ValueError.
Proof. destruct row as [|? [|? ?]]; simpl; [lia|lia|done]. Qed.

Lemma row_gt_length row other :
  length other = length row → length (row_gt row other) = length row.
Proof. intros H. unfold row_gt. rewrite length_zip_with. lia. Qed.

(** With two frames or more, the very first comparison of the peak search
    has no truth value. *)
Lemma find_harmonic_peaks_raises magnitude threshold frames :
  (3 ≤ length magnitude)%nat →
  (2 ≤ frames)%nat →
  Forall (λ row, length row = frames) magnitude →
  _find_harmonic_peaks magnitude threshold = Raised ValueError.
Proof.
  intros Hrows Hframes Hrect. unfold _find_harmonic_peaks.
  destruct magnitude as [|r0 [|r1 [|r2 m]]]; simpl in Hrows; try lia.
  apply Forall_cons in Hrect as [H0 Hrect].
  apply Forall_cons in Hrect as [H1 Hrect].
  apply Forall_cons in Hrect as [H2 Hrect].
  cbn [length Nat.sub seq find_peaks_from]. unfold is_peak.
  cbn [lookup list_lookup Nat.sub Nat.add].
  rewrite (truth_value_ambiguous (row_gt r1 r0)); [done|].
  rewrite row_gt_length; lia.
Qed.

(** The enhancement stage raises on every spectrogram of at least three
    bins and two frames, whatever the bins and the (numeric) parameters. *)
Lemma enhance_harmonics_raises D params frames enhancement threshold :
  get_number params "enhancement" 1.5%float = Some enhancement →
  get_number params "threshold" 0.1%float = Some threshold →
  (3 ≤ length D)%nat →
  (2 ≤ frames)%nat →
  Forall (λ row, length row = frames) D →
  _enhance_harmonics D params = Raised ValueError.
Proof.
  intros He Ht Hrows Hframes Hrect. unfold _enhance_harmonics.
  rewrite He, Ht.
  rewrite (find_harmonic_peaks_raises _ threshold frames); [done| |done|].
  - by rewrite length_fmap.
  - apply Forall_fmap. eapply Forall_impl; [exact Hrect|].
    intros row Hrow. simpl. by rewrite length_fmap.
Qed.

(** C9, evaluated on the code: a spectrogram of three bins and two frames
    with a peak in the middle bin of both frames, enhancement factor 2 and
    the default threshold.  The stage raises [ValueError] instead of
    returning the spectrogram with the middle row enhanced. *)
Theorem enhance_harmonics_two_frames (low peak : complex) :
  _enhance_harmonics [[low; low]; [peak; peak]; [low; low]]
                     [("enhancement", PFloat 2%float)]
  = Raised ValueError.
Proof.
  apply (enhance_harmonics_raises _ _ 2%nat 2%float 0.1%float).
  - done.
  - done.
  - simpl. lia.
  - lia.
  - by repeat constructor.
Qed.

End harmonics.

End Spectral.


(** * More of the audio cache: eviction, expiry, clearing and lookups *)

Module CacheMaintenance.
Import AudioCache.

(** ** Operations *)

(** [current_time - entry["created_at"] > self.max_age_seconds] *)
Definition too_old (current_time : Z) (st : cache) (en : entry) : bool :=
  current_time - created_at en >? max_age_seconds st.

(** [for cache_key in ks: self.remove_from_cache(cache_key)] *)
Definition remove_keys (e : env) (ks : list string) (st : cache) : cache :=
  foldl (λ st' cache_key, remove_from_cache e cache_key st') st ks.

(** [_remove_old_entries]: the clock is read once, the keys of the entries
    that are too old are collected, and then each of them is removed. *)
Definition _remove_old_entries (e : env) (st : cache) : cache :=
  let current_time := time1 e in
  let to_remove :=
    keys (filter (λ kv, too_old current_time st kv.2 = true) (cache_index st)) in
  remove_keys e to_remove st.

(** [clear_cache]: [remove_from_cache] for each key of a copy of the key
    list. *)
Definition clear_cache (e : env) (st : cache) : cache :=
  remove_keys e (keys (cache_index st)) st.

(** One round of [_cleanup_loop], from the end of the sleep on.  A
    [LoopRaised] result is the exception that the loop's handler prints
    before it goes on to the next round. *)
Definition cleanup_round (e : env) (st : cache) : loop_result :=
  let st1 := _remove_old_entries e st in
  if _get_cache_size st1 >? max_size_bytes st1
  then _remove_largest_entries e (max_size_bytes st1) st1
  else LoopDone st1.

(** ** Facts about lists and dictionaries *)

Lemma filter_all {A} (P : A → Prop) `{!∀ x, Decision (P x)} (l : list A) :
  (∀ x, x ∈ l → P x) → filter P l = l.
Proof.
  induction l as [|x l IH]; intros HP; [done|].
  rewrite filter_cons_True by (apply HP; left).
  f_equal. apply IH. intros y Hy. apply HP. by right.
Qed.

Lemma filter_none {A} (P : A → Prop) `{!∀ x, Decision (P x)} (l : list A) :
  (∀ x, x ∈ l → ¬ P x) → filter P l = [].
Proof.
  induction l as [|x l IH]; intros HP; [done|].
  rewrite filter_cons_False by (apply HP; left).
  apply IH. intros y Hy. apply HP. by right.
Qed.

Lemma filter_ext_elem {A} (P Q : A → Prop)
    `{!∀ x, Decision (P x), !∀ x, Decision (Q x)} (l : list A) :
  (∀ x, x ∈ l → P x ↔ Q x) → filter P l = filter Q l.
Proof.
  induction l as [|x l IH]; intros HPQ; [done|].
  assert (P x ↔ Q x) as Hx by (apply HPQ; left).
  assert (filter P l = filter Q l) as Hl.
  { apply IH. intros y Hy. apply HPQ. by right. }
  destruct (decide (P x)) as [HP|HP].
  - rewrite !filter_cons_True by tauto. by rewrite Hl.
  - rewrite !filter_cons_False by tauto. done.
Qed.

(** With distinct keys, [del d[k]] keeps exactly the items of the other
    keys. *)
Lemma dict_del_filter {V} k (d : pydict V) :
  NoDup (keys d) → dict_del k d = filter (λ kv, kv.1 ≠ k) d.
Proof.
  unfold keys. induction d as [|[k0 v0] d IH]; [done|].
  rewrite fmap_cons. intros [Hk Hnd]%NoDup_cons. cbn [dict_del].
  destruct (decide (k0 = k)) as [->|Hne].
  - rewrite filter_cons_False by (simpl; intros Hc; by apply Hc).
    symmetry. apply filter_all. intros [k1 v1] Hin. simpl. intros ->.
    apply Hk. apply list_elem_of_fmap. by exists (k, v1).
  - rewrite filter_cons_True by done. f_equal. by apply IH.
Qed.

Lemma py_max_largest {A} (f : A → Z) xs x :
  py_max f xs = Some x → ∀ y, y ∈ xs → f y ≤ f x.
Proof.
  destruct xs as [|x0 xs]; simpl; [done|]. intros [= <-].
  assert (∀ best,
            f best ≤ f (foldl (λ best y, if f y >? f best then y else best) best xs) ∧
            ∀ y, y ∈ xs →
                 f y ≤ f (foldl (λ best y, if f y >? f best then y else best) best xs))
    as H.
  { induction xs as [|z xs IH]; intros best; simpl.
    - split; [lia|]. intros y Hy. by apply elem_of_nil in Hy.
    - destruct (f z >? f best) eqn:Hgt.
      + destruct (IH z) as [H1 H2]. split; [lia|].
        intros y [->|Hy]%elem_of_cons; [done|by apply H2].
      + destruct (IH best) as [H1 H2]. split; [done|].
        intros y [->|Hy]%elem_of_cons; [lia|by apply H2]. }
  destruct (H x0) as [H1 H2].
  intros y [->|Hy]%elem_of_cons; [exact H1 | by apply H2].
Qed.

(** ** What a run of removals does *)

Lemma remove_keys_wf e ks st : cache_wf st → cache_wf (remove_keys e ks st).
Proof.
  unfold remove_keys. revert st. induction ks as [|k ks IH]; intros st Hwf; [done|].
  simpl. by apply IH, remove_from_cache_wf.
Qed.

Lemma remove_keys_limits e ks st :
  max_size_bytes (remove_keys e ks st) = max_size_bytes st ∧
  max_age_seconds (remove_keys e ks st) = max_age_seconds st.
Proof.
  unfold remove_keys. revert st. induction ks as [|k ks IH]; intros st; [done|].
  simpl. destruct (IH (remove_from_cache e k st)) as [-> ->].
  apply remove_from_cache_limits.
Qed.

Lemma remove_keys_index e ks st :
  cache_wf st →
  cache_index (remove_keys e ks st) = filter (λ kv, kv.1 ∉ ks) (cache_index st).
Proof.
  unfold remove_keys. revert st. induction ks as [|k ks IH]; intros st Hwf; simpl.
  - symmetry. apply filter_all. intros kv _. apply not_elem_of_nil.
  - rewrite IH by (by apply remove_from_cache_wf).
    rewrite remove_from_cache_index, dict_del_filter by done.
    rewrite list_filter_filter. apply filter_ext_elem. intros kv _.
    rewrite not_elem_of_cons. tauto.
Qed.

Lemma remove_keys_files e ks st k :
  NoDup ks → (∀ k', k' ∈ ks → k' ∈ keys (cache_index st)) →
  cache_files (remove_keys e ks st) !! k
  = if bool_decide (k ∈ ks) && os_remove_ok e k then None else cache_files st !! k.
Proof.
  unfold remove_keys. revert st.
  induction ks as [|k0 ks IH]; intros st Hnd Hin; simpl.
  - done.
  - apply NoDup_cons in Hnd as [Hk0 Hnd].
    rewrite IH; [|done|]; last first.
    { intros k' Hk'. rewrite remove_from_cache_index.
      apply keys_dict_del_other; [by intros ->|]. apply Hin. by right. }
    assert (dict_mem k0 (cache_index st) = true) as Hmem.
    { apply dict_mem_keys, Hin. by left. }
    destruct (decide (k = k0)) as [->|Hne].
    + rewrite (bool_decide_eq_false_2 (k0 ∈ ks)) by done.
      rewrite (bool_decide_eq_true_2 (k0 ∈ k0 :: ks)) by left.
      cbn [andb]. unfold remove_from_cache. rewrite Hmem.
      destruct (cache_files st !! k0) eqn:Hf, (os_remove_ok e k0); simpl; try done.
      by rewrite lookup_delete_eq.
    + rewrite remove_from_cache_files by done.
      rewrite (bool_decide_ext (k ∈ k0 :: ks) (k ∈ ks)); [done|].
      rewrite elem_of_cons. tauto.
Qed.

(** ** Eviction *)

(** X1. [_remove_largest_entries] with a target that is not negative always
    returns: it never raises, the total is at or below the target afterwards,
    all it did to the index was delete entries, and it does nothing at all
    when the total was at or below the target already. *)
Theorem eviction_reaches_target e target_size st :
  0 ≤ target_size →
  ∃ st', _remove_largest_entries e target_size st = LoopDone st' ∧
         _get_cache_size st' ≤ target_size ∧
         sublist (cache_index st') (cache_index st) ∧
         (_get_cache_size st ≤ target_size → st' = st).
Proof.
  intros Ht. pose proof (remove_largest_entries_spec e target_size st) as H.
  destruct (_remove_largest_entries e target_size st) as [st'|st'|] eqn:E.
  - exists st'. destruct H as (?&?&_). split_and!; [done..|].
    intros Hle. unfold _remove_largest_entries in E.
    rewrite evict_loop_unfold in E.
    assert ((_get_cache_size st >? target_size) = false) as Hf by lia.
    rewrite Hf in E. congruence.
  - destruct H as (?&_). lia.
  - done.
Qed.

(** X2. While the total is above the target, the entry that goes is one whose
    payload file is largest (not the oldest or the least recently used one),
    and the eviction then carries on from the cache without it. *)
Theorem eviction_takes_a_largest_payload e target_size st :
  0 ≤ target_size →
  target_size < _get_cache_size st →
  ∃ largest_key,
    largest_key ∈ keys (cache_index st) ∧
    (∀ k, k ∈ keys (cache_index st) →
          payload_size st k ≤ payload_size st largest_key) ∧
    _remove_largest_entries e target_size st
    = _remove_largest_entries e target_size (remove_from_cache e largest_key st).
Proof.
  intros Ht Hgt.
  destruct (py_max (payload_size st) (keys (cache_index st))) as [k|] eqn:Hmax.
  - exists k. pose proof (py_max_elem _ _ _ Hmax) as Hin.
    split_and!; [done|by apply (py_max_largest _ _ _ Hmax)|].
    unfold _remove_largest_entries at 1. rewrite evict_loop_unfold.
    assert ((_get_cache_size st >? target_size) = true) as -> by lia.
    rewrite Hmax. pose proof (dict_del_length k _ Hin) as Hlen.
    destruct (length (cache_index st)) as [|n] eqn:Hn; [lia|].
    apply evict_loop_fuel. rewrite remove_from_cache_index. lia.
  - exfalso. rewrite get_cache_size_sum in Hgt.
    destruct (keys (cache_index st)) as [|k ks]; [|done].
    change (sum_sizes st []) with 0 in Hgt. lia.
Qed.

(** ** Expiry and clearing *)

(** X3. [_remove_old_entries] leaves exactly the entries that are not older than
    [max_age_seconds] at the one clock reading it takes, in their order and
    with their values; their payload files are untouched, and so are the
    limits. *)
Theorem remove_old_entries_keeps_the_fresh e st :
  cache_wf st →
  let st' := _remove_old_entries e st in
  cache_index st'
  = filter (λ kv, too_old (time1 e) st kv.2 = false) (cache_index st) ∧
  (∀ k, k ∈ keys (cache_index st') → cache_files st' !! k = cache_files st !! k) ∧
  max_size_bytes st' = max_size_bytes st ∧
  max_age_seconds st' = max_age_seconds st.
Proof.
  intros Hwf st'. subst st'. unfold _remove_old_entries. cbv zeta.
  set (old := filter (λ kv, too_old (time1 e) st kv.2 = true) (cache_index st)).
  assert (∀ kv, kv ∈ cache_index st →
            kv.1 ∉ keys old ↔ too_old (time1 e) st kv.2 = false) as Hfresh.
  { intros [k en] Hin. simpl. split.
    - intros Hk. destruct (too_old (time1 e) st en) eqn:Ho; [|done].
      exfalso. apply Hk. apply list_elem_of_fmap. exists (k, en).
      split; [done|]. by apply list_elem_of_filter.
    - intros Ho (kv' & Hk' & [Hold Hin']%list_elem_of_filter)%list_elem_of_fmap.
      destruct kv' as [k' en']. simpl in *. subst k'.
      rewrite (dict_items_functional k en en' (cache_index st)) in Ho by done.
      congruence. }
  assert (cache_index (remove_keys e (keys old) st)
          = filter (λ kv, too_old (time1 e) st kv.2 = false) (cache_index st))
    as Hidx.
  { rewrite remove_keys_index by done. by apply filter_ext_elem. }
  split_and!; [done| |apply remove_keys_limits..].
  intros k Hk. rewrite remove_keys_files.
  - rewrite bool_decide_eq_false_2; [done|].
    rewrite Hidx in Hk.
    apply list_elem_of_fmap in Hk as ([k' en] & -> & [Ho Hin]%list_elem_of_filter).
    simpl in *. by apply (Hfresh (k', en)).
  - apply (sublist_NoDup _ (keys (cache_index st))); [done|].
    apply keys_sublist, sublist_filter.
  - intros k' Hk'. eapply elem_of_sublist; [exact Hk'|].
    apply keys_sublist, sublist_filter.
Qed.

(** X4. [clear_cache] empties the index, so that the reported total is zero,
    whether or not the payload files could be removed: a payload whose
    [os.remove] fails stays in the directory with no entry pointing at it,
    and files that had no entry are left alone. *)
Theorem clear_cache_empties_the_index e st :
  cache_wf st →
  let st' := clear_cache e st in
  cache_index st' = [] ∧
  _get_cache_size st' = 0 ∧
  ∀ k, cache_files st' !! k
       = if bool_decide (k ∈ keys (cache_index st)) && os_remove_ok e k
         then None else cache_files st !! k.
Proof.
  intros Hwf st'. subst st'. unfold clear_cache.
  assert (cache_index (remove_keys e (keys (cache_index st)) st) = []) as Hidx.
  { rewrite remove_keys_index by done. apply filter_none.
    intros kv Hin Hk. apply Hk. apply list_elem_of_fmap. by exists kv. }
  split_and!; [done| |].
  - by rewrite get_cache_size_sum, Hidx.
  - intros k. by apply remove_keys_files.
Qed.

(** X5. One round of the periodic cleanup, for a cache whose size limit is not
    negative: the round ends normally, and afterwards no entry is older than
    [max_age_seconds] at the round's clock reading, the total is within
    [max_size_bytes], and the index is the old one with entries deleted. *)
Theorem cleanup_round_restores_the_limits e st :
  cache_wf st →
  0 ≤ max_size_bytes st →
  ∃ st', cleanup_round e st = LoopDone st' ∧
         _get_cache_size st' ≤ max_size_bytes st ∧
         Forall (λ kv, time1 e - created_at kv.2 ≤ max_age_seconds st)
                (cache_index st') ∧
         sublist (cache_index st') (cache_index st).
Proof.
  intros Hwf Hmax. unfold cleanup_round. cbv zeta.
  destruct (remove_old_entries_keeps_the_fresh e st Hwf) as (Hidx & _ & Hms & _).
  set (st1 := _remove_old_entries e st) in *.
  assert (Forall (λ kv, time1 e - created_at kv.2 ≤ max_age_seconds st)
                 (cache_index st1)) as Hfresh.
  { rewrite Hidx. apply Forall_forall.
    intros kv [Ho _]%list_elem_of_filter. unfold too_old in Ho. lia. }
  assert (sublist (cache_index st1) (cache_index st)) as Hsub.
  { rewrite Hidx. apply sublist_filter. }
  rewrite Hms.
  destruct (_get_cache_size st1 >? max_size_bytes st) eqn:Hgt.
  - pose proof (remove_largest_entries_spec e (max_size_bytes st) st1) as H.
    destruct (_remove_largest_entries e (max_size_bytes st) st1) as [st'|st'|];
      [|destruct H as (?&_); lia|done].
    destruct H as (Hsz & Hsub' & _).
    exists st'. split_and!; [done|done| |by etrans].
    apply Forall_forall. intros kv Hin.
    rewrite Forall_forall in Hfresh. apply Hfresh.
    by eapply elem_of_sublist.
  - exists st1. split_and!; [done|lia|done|done].
Qed.

(** ** Statistics *)

Lemma foldl_min_le_init t ts : foldl Z.min t ts ≤ t.
Proof.
  revert t. induction ts as [|u ts IH]; intros t; simpl; [lia|].
  specialize (IH (Z.min t u)). lia.
Qed.

Lemma foldl_min_le t ts x : x ∈ t :: ts → foldl Z.min t ts ≤ x.
Proof.
  intros [->|Hx]%elem_of_cons; [apply foldl_min_le_init|].
  revert t. induction ts as [|u ts IH]; intros t; [by apply elem_of_nil in Hx|].
  simpl. apply elem_of_cons in Hx as [->|Hx].
  - pose proof (foldl_min_le_init (Z.min t u) ts). lia.
  - by apply IH.
Qed.

Lemma foldl_min_elem t ts : foldl Z.min t ts ∈ t :: ts.
Proof.
  revert t. induction ts as [|u ts IH]; intros t; simpl; [left|].
  pose proof (IH (Z.min t u)) as Hm. apply elem_of_cons in Hm as [Hm|Hm].
  - rewrite Hm. destruct (Z.min_spec t u) as [[_ ->]|[_ ->]]; [left|right; left].
  - right. by right.
Qed.

(** X6. [get_cache_stats] counts the index entries and reports the age of the
    oldest one: no entry is older than the age reported, and some entry has
    exactly that age.  For an empty index the total is zero and the age is
    the time between the two clock readings of the call. *)
Theorem stats_report_the_oldest_entry e st :
  let s := get_cache_stats e st in
  entry_count s = length (cache_index st) ∧
  (cache_index st = [] →
   total_size_bytes s = 0 ∧ oldest_entry_age_seconds s = time2 e - time1 e) ∧
  (∀ k en, (k, en) ∈ cache_index st →
           time2 e - created_at en ≤ oldest_entry_age_seconds s) ∧
  (cache_index st ≠ [] →
   ∃ k en, (k, en) ∈ cache_index st ∧
           oldest_entry_age_seconds s = time2 e - created_at en).
Proof.
  cbv zeta. unfold get_cache_stats. cbn [entry_count oldest_entry_age_seconds
    total_size_bytes]. split_and!; [done| | |].
  - intros Hidx. rewrite get_cache_size_sum, Hidx. done.
  - intros k en Hin.
    assert (created_at en ∈ created_at <$> (cache_index st).*2) as Hc.
    { apply list_elem_of_fmap. exists en. split; [done|].
      apply list_elem_of_fmap. by exists (k, en). }
    destruct (created_at <$> (cache_index st).*2) as [|t ts];
      [by apply elem_of_nil in Hc|].
    pose proof (foldl_min_le t ts _ Hc). lia.
  - intros Hne.
    destruct (created_at <$> (cache_index st).*2) as [|t ts] eqn:Hts.
    { destruct (cache_index st); [done|discriminate]. }
    pose proof (foldl_min_elem t ts) as Hm. rewrite <- Hts in Hm.
    apply list_elem_of_fmap in Hm as (en & Hen & Hm).
    apply list_elem_of_fmap in Hm as ([k en'] & -> & Hin).
    exists k, en'. split; [done|]. simpl in Hen. by rewrite Hen.
Qed.

(** ** Lookups and insertions *)

Section lookups.
Context (float_repr : float → string)
        (encode_basestring_ascii md5_hexdigest : string → string).

#[local] Abbreviation _generate_cache_key :=
  (AudioCache._generate_cache_key float_repr encode_basestring_ascii md5_hexdigest).
#[local] Abbreviation get_cached_audio :=
  (AudioCache.get_cached_audio float_repr encode_basestring_ascii md5_hexdigest).
#[local] Abbreviation cache_audio :=
  (AudioCache.cache_audio float_repr encode_basestring_ascii md5_hexdigest).

Lemma dict_set_length {V} k (v : V) d :
  length (dict_set k v d)
  = if dict_mem k d then length d else S (length d).
Proof.
  destruct (dict_mem k d) eqn:Hm.
  - apply dict_mem_keys in Hm.
    pose proof (keys_dict_set_mem k v d Hm) as Hk. unfold keys in Hk.
    by rewrite <- (length_fmap fst (dict_set k v d)), Hk, length_fmap.
  - assert (k ∉ keys d) as Hk by (intros ?%dict_mem_keys; congruence).
    pose proof (keys_dict_set_new k v d Hk) as Hk'. unfold keys in Hk'.
    rewrite <- (length_fmap fst (dict_set k v d)), Hk', length_app, length_fmap.
    simpl. lia.
Qed.

(** X7. An index entry whose payload file is gone is dropped by the lookup that
    finds it: the lookup returns [None], deletes that entry and nothing
    else, and from then on the key is an ordinary miss that leaves the cache
    as it is. *)
Theorem lookup_drops_entry_without_payload e text engine voice_id settings st en :
  cache_wf st →
  let cache_key := _generate_cache_key text engine voice_id settings in
  dict_get cache_key (cache_index st) = Some en →
  cache_files st !! cache_key = None →
  let st' := set_index (dict_del cache_key) st in
  get_cached_audio e text engine voice_id settings st = (None, st') ∧
  (∀ k, k ≠ cache_key →
        dict_get k (cache_index st') = dict_get k (cache_index st)) ∧
  ∀ e', get_cached_audio e' text engine voice_id settings st' = (None, st').
Proof.
  intros Hwf cache_key Hget Hfile st'. split_and!.
  - unfold AudioCache.get_cached_audio. fold cache_key. by rewrite Hget, Hfile.
  - intros k Hk. by apply dict_get_del_ne.
  - intros e'. unfold AudioCache.get_cached_audio. fold cache_key.
    assert (dict_get cache_key (cache_index st') = None) as ->; [|done].
    apply dict_get_None. by apply keys_dict_del_notin.
Qed.

(** X8. A lookup that finds a fresh entry with its payload returns the payload
    when the read succeeds and [None] when it fails, and either way all it
    changes is that entry's [last_accessed]: the files, the order of the
    index and every other entry stay as they were. *)
Theorem lookup_hit_touches_last_accessed
    e text engine voice_id settings st en payload :
  let cache_key := _generate_cache_key text engine voice_id settings in
  dict_get cache_key (cache_index st) = Some en →
  cache_files st !! cache_key = Some payload →
  time1 e - created_at en ≤ max_age_seconds st →
  ∃ st',
    get_cached_audio e text engine voice_id settings st
    = (if read_ok e then Some payload else None, st') ∧
    cache_files st' = cache_files st ∧
    keys (cache_index st') = keys (cache_index st) ∧
    dict_get cache_key (cache_index st')
    = Some (Entry (created_at en) (time2 e) (size en)
                  (entry_engine en) (entry_voice_id en)) ∧
    ∀ k, k ≠ cache_key →
         dict_get k (cache_index st') = dict_get k (cache_index st).
Proof.
  intros cache_key Hget Hfile Hage.
  unfold AudioCache.get_cached_audio. fold cache_key. rewrite Hget, Hfile.
  assert ((time1 e - created_at en >? max_age_seconds st) = false) as -> by lia.
  eexists. split; [by destruct (read_ok e)|]. cbn [cache_files cache_index set_index].
  split_and!.
  - done.
  - apply keys_dict_set_mem. apply list_elem_of_fmap. exists (cache_key, en).
    split; [done|]. by apply dict_get_Some.
  - apply dict_get_set_eq.
  - intros k Hk. by apply dict_get_set_ne.
Qed.

(** X9. When the payload fits without eviction and the write succeeds,
    [cache_audio] returns the key, under which the index then holds the new
    entry and the directory the payload; every other entry and file is as
    before, and the index has grown by one entry for a new key and not at
    all for a key it already had. *)
Theorem cache_audio_stores_the_entry e text engine voice_id settings audio_data st :
  let cache_key := _generate_cache_key text engine voice_id settings in
  let len := Z.of_nat (length audio_data) in
  _get_cache_size st + len ≤ max_size_bytes st →
  write_outcome e = WriteOk →
  ∃ st',
    cache_audio e text engine voice_id settings audio_data st
    = Returned cache_key st' ∧
    dict_get cache_key (cache_index st')
    = Some (Entry (time1 e) (time2 e) len engine voice_id) ∧
    cache_files st' !! cache_key = Some audio_data ∧
    (∀ k, k ≠ cache_key →
          dict_get k (cache_index st') = dict_get k (cache_index st) ∧
          cache_files st' !! k = cache_files st !! k) ∧
    length (cache_index st')
    = if dict_mem cache_key (cache_index st)
      then length (cache_index st) else S (length (cache_index st)).
Proof.
  intros cache_key len Hfit Hw. rewrite cache_audio_unfold. cbv zeta.
  fold cache_key. fold len. unfold make_space.
  assert ((_get_cache_size st + len >? max_size_bytes st) = false) as -> by lia.
  rewrite Hw. eexists. split; [done|].
  cbn [cache_files cache_index set_index set_files]. split_and!.
  - apply dict_get_set_eq.
  - apply lookup_insert_eq.
  - intros k Hk. split; [by apply dict_get_set_ne | by apply lookup_insert_ne].
  - apply dict_set_length.
Qed.

(** X10. A write that fails part-way over a key the index already holds leaves
    the old entry pointing at the truncated file: the call returns the key
    as if nothing had happened, the index is unchanged, and the next lookup
    returns the written prefix of the new payload. *)
Theorem failed_overwrite_serves_truncated_payload
    e e' text engine voice_id settings audio_data st en written :
  let cache_key := _generate_cache_key text engine voice_id settings in
  dict_get cache_key (cache_index st) = Some en →
  _get_cache_size st + Z.of_nat (length audio_data) ≤ max_size_bytes st →
  write_outcome e = WriteFails written →
  time1 e' - created_at en ≤ max_age_seconds st →
  read_ok e' = true →
  ∃ st1 st2,
    cache_audio e text engine voice_id settings audio_data st
    = Returned cache_key st1 ∧
    cache_index st1 = cache_index st ∧
    get_cached_audio e' text engine voice_id settings st1
    = (Some (take written audio_data), st2).
Proof.
  intros cache_key Hget Hfit Hw Hage Hr. rewrite cache_audio_unfold. cbv zeta.
  fold cache_key. unfold make_space.
  assert ((_get_cache_size st + Z.of_nat (length audio_data) >? max_size_bytes st)
          = false) as -> by lia.
  rewrite Hw. eexists _, _. split; [done|]. split; [done|].
  unfold AudioCache.get_cached_audio. fold cache_key.
  cbn [cache_files cache_index set_files max_age_seconds].
  rewrite Hget, lookup_insert_eq.
  assert ((time1 e' - created_at en >? max_age_seconds st) = false) as -> by lia.
  by rewrite Hr.
Qed.

End lookups.

(** ** Runs on small caches *)

(** Two entries in a cache of five bytes and one day: an old one of four
    bytes and a recent one of one byte. *)
Definition two_entries : cache :=
  Cache {["old" := test_bytes; "new" := [Byte.x78]]} 5 86400
        [("old", Entry 0 0 4 "test" "test");
         ("new", Entry 100000 100000 1 "test" "test")].

Lemma two_entries_wf : cache_wf two_entries.
Proof. refine (bool_decide_unpack _ _). by vm_compute. Qed.

Lemma eviction_reaches_target_witness :
  ∃ st', _remove_largest_entries (env_ok 100001) 3 two_entries = LoopDone st' ∧
         _get_cache_size st' ≤ 3 ∧
         sublist (cache_index st') (cache_index two_entries) ∧
         (_get_cache_size two_entries ≤ 3 → st' = two_entries).
Proof. apply eviction_reaches_target. lia. Defined.

Lemma eviction_takes_a_largest_payload_witness :
  ∃ largest_key,
    largest_key ∈ keys (cache_index two_entries) ∧
    (∀ k, k ∈ keys (cache_index two_entries) →
          payload_size two_entries k ≤ payload_size two_entries largest_key) ∧
    _remove_largest_entries (env_ok 100001) 3 two_entries
    = _remove_largest_entries (env_ok 100001) 3
        (remove_from_cache (env_ok 100001) largest_key two_entries).
Proof. apply eviction_takes_a_largest_payload; [lia | by vm_compute]. Defined.

Lemma remove_old_entries_keeps_the_fresh_witness :
  let st' := _remove_old_entries (env_ok 100001) two_entries in
  cache_index st'
  = filter (λ kv, too_old 100001 two_entries kv.2 = false)
           (cache_index two_entries) ∧
  (∀ k, k ∈ keys (cache_index st') →
        cache_files st' !! k = cache_files two_entries !! k) ∧
  max_size_bytes st' = max_size_bytes two_entries ∧
  max_age_seconds st' = max_age_seconds two_entries.
Proof.
  apply (remove_old_entries_keeps_the_fresh (env_ok 100001) two_entries).
  exact two_entries_wf.
Defined.

Lemma clear_cache_empties_the_index_witness :
  let st' := clear_cache (env_ok 100001) two_entries in
  cache_index st' = [] ∧
  _get_cache_size st' = 0 ∧
  ∀ k, cache_files st' !! k
       = if bool_decide (k ∈ keys (cache_index two_entries)) &&
            os_remove_ok (env_ok 100001) k
         then None else cache_files two_entries !! k.
Proof. apply clear_cache_empties_the_index. exact two_entries_wf. Defined.

Lemma cleanup_round_restores_the_limits_witness :
  ∃ st', cleanup_round (env_ok 100001) two_entries = LoopDone st' ∧
         _get_cache_size st' ≤ max_size_bytes two_entries ∧
         Forall (λ kv, time1 (env_ok 100001) - created_at kv.2
                       ≤ max_age_seconds two_entries)
                (cache_index st') ∧
         sublist (cache_index st') (cache_index two_entries).
Proof.
  apply cleanup_round_restores_the_limits; [exact two_entries_wf | by vm_compute].
Defined.

(** The index still lists a payload that someone deleted from the
    directory. *)
Definition orphaned_entry : cache :=
  Cache ∅ (10 * 1024 * 1024) 86400
        [(key_of "test" "test" "test" [], Entry 1000 1000 4 "test" "test")].

Lemma lookup_drops_entry_without_payload_witness :
  let cache_key := key_of "test" "test" "test" [] in
  let st' := set_index (dict_del cache_key) orphaned_entry in
  get_cached_audio repr_stub escape_stub digest_stub (env_ok 2000)
    "test" "test" "test" [] orphaned_entry = (None, st') ∧
  (∀ k, k ≠ cache_key →
        dict_get k (cache_index st') = dict_get k (cache_index orphaned_entry)) ∧
  ∀ e', get_cached_audio repr_stub escape_stub digest_stub e'
          "test" "test" "test" [] st' = (None, st').
Proof.
  apply (lookup_drops_entry_without_payload repr_stub escape_stub digest_stub
           (env_ok 2000) "test" "test" "test" [] orphaned_entry
           (Entry 1000 1000 4 "test" "test")).
  - refine (bool_decide_unpack _ _). by vm_compute.
  - by vm_compute.
  - by vm_compute.
Defined.

(** One entry of four bytes, cached at time 1000. *)
Definition one_entry : cache :=
  Cache {[key_of "test" "test" "test" [] := test_bytes]}
        (10 * 1024 * 1024) 86400
        [(key_of "test" "test" "test" [], Entry 1000 1000 4 "test" "test")].

Lemma lookup_hit_touches_last_accessed_witness :
  let cache_key := key_of "test" "test" "test" [] in
  ∃ st',
    get_cached_audio repr_stub escape_stub digest_stub (env_ok 2000)
      "test" "test" "test" [] one_entry
    = (if read_ok (env_ok 2000) then Some test_bytes else None, st') ∧
    cache_files st' = cache_files one_entry ∧
    keys (cache_index st') = keys (cache_index one_entry) ∧
    dict_get cache_key (cache_index st')
    = Some (Entry 1000 2000 4 "test" "test") ∧
    ∀ k, k ≠ cache_key →
         dict_get k (cache_index st') = dict_get k (cache_index one_entry).
Proof.
  apply (lookup_hit_touches_last_accessed repr_stub escape_stub digest_stub
           (env_ok 2000) "test" "test" "test" [] one_entry
           (Entry 1000 1000 4 "test" "test") test_bytes).
  - by vm_compute.
  - by vm_compute.
  - by vm_compute.
Defined.

Lemma cache_audio_stores_the_entry_witness :
  let cache_key := key_of "test" "test" "test" [] in
  ∃ st',
    cache_audio repr_stub escape_stub digest_stub (env_ok 3000)
      "test" "test" "test" [] [Byte.x78] one_entry
    = Returned cache_key st' ∧
    dict_get cache_key (cache_index st')
    = Some (Entry 3000 3000 1 "test" "test") ∧
    cache_files st' !! cache_key = Some [Byte.x78] ∧
    (∀ k, k ≠ cache_key →
          dict_get k (cache_index st') = dict_get k (cache_index one_entry) ∧
          cache_files st' !! k = cache_files one_entry !! k) ∧
    length (cache_index st')
    = if dict_mem cache_key (cache_index one_entry)
      then length (cache_index one_entry) else S (length (cache_index one_entry)).
Proof.
  apply (cache_audio_stores_the_entry repr_stub escape_stub digest_stub
           (env_ok 3000) "test" "test" "test" [] [Byte.x78] one_entry).
  - by vm_compute.
  - done.
Defined.

(** The payload write stops after two bytes. *)
Definition env_write_stops (t : Z) : env :=
  Env t t (λ _, true) (WriteFails 2) true.

Lemma failed_overwrite_serves_truncated_payload_witness :
  ∃ st1 st2,
    cache_audio repr_stub escape_stub digest_stub (env_write_stops 3000)
      "test" "test" "test" [] [Byte.x61; Byte.x62; Byte.x63] one_entry
    = Returned (key_of "test" "test" "test" []) st1 ∧
    cache_index st1 = cache_index one_entry ∧
    get_cached_audio repr_stub escape_stub digest_stub (env_ok 4000)
      "test" "test" "test" [] st1
    = (Some (take 2 [Byte.x61; Byte.x62; Byte.x63]), st2).
Proof.
  apply (failed_overwrite_serves_truncated_payload repr_stub escape_stub
           digest_stub (env_write_stops 3000) (env_ok 4000)
           "test" "test" "test" [] [Byte.x61; Byte.x62; Byte.x63] one_entry
           (Entry 1000 1000 4 "test" "test") 2%nat).
  - by vm_compute.
  - by vm_compute.
  - done.
  - by vm_compute.
  - done.
Defined.

End CacheMaintenance.


(** * More of the ElevenLabs engine: its life cycle and accepted settings *)

Module EngineLifecycle.
Import ElevenLabs.

(** ** Operations *)

(** [speak].  [generated] is what building the request and calling the
    service give: the audio, or [None] for an exception, which the handler
    turns into a [TTSEngineError].  The body has no [await], so no other
    coroutine of the event loop runs between its first and its last
    statement. *)
Definition speak (generated : option (list Byte.byte)) (eng : engine)
    : option (list Byte.byte) * engine :=
  let eng1 := set_flags true false eng in
  match generated with
  | Some audio => (Some audio, set_flags false (_paused eng1) eng1)
  | None => (None, set_flags false (_paused eng1) eng1)
  end.

(** [pause] *)
Definition pause (eng : engine) : engine :=
  if _speaking eng && negb (_paused eng)
  then set_flags (_speaking eng) true eng else eng.

(** [resume] *)
Definition resume (eng : engine) : engine :=
  if _speaking eng && _paused eng
  then set_flags (_speaking eng) false eng else eng.

(** [stop] *)
Definition stop (eng : engine) : engine := set_flags false false eng.

(** [cleanup] *)
Definition cleanup (eng : engine) : engine := set_voices ∅ (stop eng).

(** [_update_voice_cache].  [listing] is what [voices()] gives: the ids of
    the available voices, or [None] when it raises.  The result says whether
    the call returned ([true]) or raised [TTSEngineError] ([false]). *)
Definition _update_voice_cache (listing : option (list string)) (eng : engine)
    : bool * engine :=
  match listing with
  | Some ids => (true, set_voices (list_to_set ids) eng)
  | None => (false, eng)
  end.

(** [initialize].  [api_key] is [os.getenv("ELEVENLABS_API_KEY")]; a missing
    or empty key raises before the service is asked for its voices, and
    [set_api_key] only stores the key. *)
Definition initialize (api_key : option string) (listing : option (list string))
    (eng : engine) : bool * engine :=
  match api_key with
  | None => (false, eng)
  | Some key =>
      if bool_decide (key = EmptyString) then (false, eng)
      else _update_voice_cache listing eng
  end.

(** The engines a program gets by calling these methods, each call running
    to its end. *)
Inductive reached : engine → Prop :=
  | reached_init : reached __init__
  | reached_initialize api_key listing eng :
      reached eng → reached (initialize api_key listing eng).2
  | reached_update listing eng :
      reached eng → reached (_update_voice_cache listing eng).2
  | reached_configure settings eng :
      reached eng → reached (final_state (configure settings eng))
  | reached_speak generated eng : reached eng → reached (speak generated eng).2
  | reached_pause eng : reached eng → reached (pause eng)
  | reached_resume eng : reached eng → reached (resume eng)
  | reached_stop eng : reached eng → reached (stop eng)
  | reached_cleanup eng : reached eng → reached (cleanup eng).

(** ** Properties *)

Lemma update_voice_cache_reachable listing eng :
  reachable eng → reachable (_update_voice_cache listing eng).2.
Proof. destruct listing; simpl; [by apply reach_voices | done]. Qed.

Lemma reached_reachable eng : reached eng → reachable eng.
Proof.
  induction 1 as [|api_key listing eng _ IH|listing eng _ IH|settings eng _ IH
                  |generated eng _ IH|eng _ IH|eng _ IH|eng _ IH|eng _ IH].
  - apply reach_init.
  - unfold initialize. destruct api_key as [key|]; [|done].
    destruct (bool_decide (key = EmptyString)); [done|].
    by apply update_voice_cache_reachable.
  - by apply update_voice_cache_reachable.
  - by apply reach_configure.
  - destruct generated; simpl; by do 2 apply reach_flags.
  - unfold pause. destruct (_ && _); [by apply reach_flags | done].
  - unfold resume. destruct (_ && _); [by apply reach_flags | done].
  - by apply reach_flags.
  - by apply reach_voices, reach_flags.
Qed.

Lemma configure_flags settings eng :
  _speaking (final_state (configure settings eng)) = _speaking eng ∧
  _paused (final_state (configure settings eng)) = _paused eng ∧
  _voice_cache (final_state (configure settings eng)) = _voice_cache eng.
Proof.
  revert eng. induction settings as [|[key value] rest IH]; intros eng; simpl; [done|].
  destruct (dict_mem key (_settings eng)); [|apply IH].
  destruct (check eng key value); [done|].
  destruct (IH (set_settings (dict_set key value) eng)) as (-> & -> & ->). done.
Qed.

(** X11. Between calls the engine is never speaking and never paused, so [pause]
    and [resume] change nothing whenever they are called: [speak] sets
    [_speaking] and clears it again before it returns or raises. *)
Theorem pause_and_resume_never_take_effect eng :
  reached eng →
  _speaking eng = false ∧ _paused eng = false ∧
  pause eng = eng ∧ resume eng = eng.
Proof.
  intros Hr.
  assert (_speaking eng = false ∧ _paused eng = false) as [Hs Hp].
  { induction Hr as [|api_key listing eng _ IH|listing eng _ IH|settings eng _ IH
                     |generated eng _ IH|eng _ IH|eng _ IH|eng _ IH|eng _ IH].
    - done.
    - unfold initialize. destruct api_key as [key|]; [|done].
      destruct (bool_decide (key = EmptyString)); [done|]. by destruct listing.
    - by destruct listing.
    - destruct (configure_flags settings eng) as (-> & -> & _). done.
    - by destruct generated.
    - destruct IH as [Hs Hp]. unfold pause. by rewrite Hs.
    - destruct IH as [Hs Hp]. unfold resume. by rewrite Hs.
    - done.
    - done. }
  unfold pause, resume. by rewrite Hs.
Qed.

Lemma check_ignores_settings f eng key value :
  check (set_settings f eng) key value = check eng key value.
Proof. done. Qed.

Lemma check_voice_id_no_voices eng value :
  _voice_cache eng = ∅ → is_Some (check eng "voice_id" value).
Proof.
  intros Hv. unfold check. rewrite Hv.
  rewrite (bool_decide_eq_true_2 ("voice_id" = "voice_id")) by done.
  destruct value as [ |b|z|f|s|l|d]; simpl; eauto.
Qed.

(** X12. While the engine knows no voice (before [initialize] and after
    [cleanup]), every settings map with a [voice_id] entry is refused,
    whatever the voice id, the default one included. *)
Theorem voice_id_is_refused_without_voices settings eng value :
  reached eng →
  _voice_cache eng = ∅ →
  ("voice_id", value) ∈ settings →
  ∃ why eng', configure settings eng = Raised (TTSEngineError why) eng'.
Proof.
  intros Hr%reached_reachable%reachable_keys. revert eng Hr.
  induction settings as [|[k v] rest IH]; intros eng Hkeys Hv Hin.
  { by apply elem_of_nil in Hin. }
  simpl. destruct (dict_mem k (_settings eng)) eqn:Hmem.
  - destruct (check eng k v) as [why|] eqn:Hcheck; [by eauto|].
    apply elem_of_cons in Hin as [Heq|Hin].
    { simplify_eq. destruct (check_voice_id_no_voices eng v Hv). congruence. }
    apply IH; [|done|done].
    simpl. rewrite keys_dict_set_mem; [done|]. by apply dict_mem_keys.
  - apply elem_of_cons in Hin as [Heq|Hin]; [|by apply IH].
    simplify_eq. rewrite (dict_mem_recognized eng "voice_id" Hkeys) in Hmem.
    by vm_compute in Hmem.
Qed.

(** X13. A settings map whose recognized entries all pass their checks is applied
    as a whole: [configure] returns, each recognized key of the map then has
    the value the map gives it, every other setting keeps its value, and the
    flags and voices are untouched. *)
Theorem configure_applies_valid_settings settings eng :
  reached eng →
  NoDup (keys settings) →
  (∀ k v, (k, v) ∈ settings → k ∈ recognized → check eng k v = None) →
  ∃ eng',
    configure settings eng = Returned eng' ∧
    (∀ k v, (k, v) ∈ settings → k ∈ recognized →
            dict_get k (_settings eng') = Some v) ∧
    (∀ k, k ∉ keys settings →
          dict_get k (_settings eng') = dict_get k (_settings eng)) ∧
    keys (_settings eng') = recognized ∧
    _speaking eng' = _speaking eng ∧ _paused eng' = _paused eng ∧
    _voice_cache eng' = _voice_cache eng.
Proof.
  intros Hr%reached_reachable%reachable_keys. revert eng Hr.
  induction settings as [|[k v] rest IH]; intros eng Hkeys Hnd Hok.
  { exists eng. split_and!; try done. intros k v Hin. by apply elem_of_nil in Hin. }
  unfold keys in Hnd. rewrite fmap_cons in Hnd.
  apply NoDup_cons in Hnd as [Hk Hnd]. simpl in Hk.
  simpl. rewrite (dict_mem_recognized eng k Hkeys).
  destruct (decide (k ∈ recognized)) as [Hrec|Hrec].
  - rewrite bool_decide_eq_true_2 by done.
    rewrite (Hok k v) by (done || left).
    destruct (IH (set_settings (dict_set k v) eng))
      as (eng' & Hc & Hset & Hother & Hkeys' & Hs & Hp & Hv); [| done | |].
    { simpl. rewrite keys_dict_set_mem; [done|]. by rewrite Hkeys. }
    { intros k' v' Hin' Hrec'. rewrite check_ignores_settings.
      apply Hok; [by right | done]. }
    exists eng'. split_and!; try done.
    + intros k' v' [Heq|Hin']%elem_of_cons Hrec'.
      * simplify_eq. rewrite Hother by done. simpl. apply dict_get_set_eq.
      * by apply Hset.
    + intros k' Hk'. unfold keys in Hk'. simpl in Hk'.
      apply not_elem_of_cons in Hk' as [Hne Hk']. simpl in Hne.
      rewrite Hother by done. simpl. by apply dict_get_set_ne.
  - rewrite bool_decide_eq_false_2 by done.
    destruct (IH eng) as (eng' & Hc & Hset & Hother & Hkeys' & Hs & Hp & Hv);
      [done..| |].
    { intros k' v' Hin' Hrec'. apply Hok; [by right | done]. }
    exists eng'. split_and!; try done.
    + intros k' v' [Heq|Hin']%elem_of_cons Hrec'; [by simplify_eq | by apply Hset].
    + intros k' Hk'. unfold keys in Hk'. simpl in Hk'.
      apply not_elem_of_cons in Hk' as [Hne Hk']. by apply Hother.
Qed.

(** X14. [model_id] is stored without any check: whatever value the map gives it,
    a string or not, [configure] accepts it. *)
Theorem model_id_is_not_validated eng value :
  reached eng →
  configure [("model_id", value)] eng
  = Returned (set_settings (dict_set "model_id" value) eng).
Proof.
  intros Hr%reached_reachable%reachable_keys. cbn [configure].
  rewrite (dict_mem_recognized eng "model_id" Hr).
  rewrite bool_decide_eq_true_2 by (unfold recognized; set_solver).
  assert (check eng "model_id" value = None) as Hcheck by done.
  by rewrite Hcheck.
Qed.

(** X15. After a successful [initialize], a [voice_id] is accepted exactly when
    it is the id of one of the voices the service listed, and is then the
    stored voice. *)
Theorem initialize_then_voice_id key ids eng s :
  reached eng →
  key ≠ EmptyString →
  ∃ eng1,
    initialize (Some key) (Some ids) eng = (true, eng1) ∧
    (s ∈ ids →
     configure [("voice_id", PStr s)] eng1
     = Returned (set_settings (dict_set "voice_id" (PStr s)) eng1)) ∧
    (s ∉ ids →
     configure [("voice_id", PStr s)] eng1
     = Raised (TTSEngineError InvalidVoiceId) eng1).
Proof.
  intros Hr%reached_reachable%reachable_keys Hkey. unfold initialize.
  rewrite bool_decide_eq_false_2 by done. simpl.
  eexists. split; [done|].
  assert (dict_mem "voice_id" (_settings (set_voices (list_to_set ids) eng)) = true)
    as Hmem.
  { simpl. rewrite (dict_mem_recognized eng "voice_id" Hr). by vm_compute. }
  assert (check (set_voices (list_to_set ids) eng) "voice_id" (PStr s)
          = if bool_decide (s ∈ (list_to_set ids : gset string))
            then None else Some InvalidVoiceId) as Hcheck.
  { unfold check. simpl. by destruct (bool_decide _). }
  split; intros Hs; cbn [configure]; rewrite Hmem, Hcheck.
  - by rewrite bool_decide_eq_true_2 by (by apply elem_of_list_to_set).
  - by rewrite bool_decide_eq_false_2 by (by rewrite elem_of_list_to_set).
Qed.

(** ** Runs *)

Lemma pause_and_resume_never_take_effect_witness :
  let eng := (speak (Some [Byte.x00]) __init__).2 in
  _speaking eng = false ∧ _paused eng = false ∧
  pause eng = eng ∧ resume eng = eng.
Proof.
  apply pause_and_resume_never_take_effect.
  apply reached_speak, reached_init.
Defined.

Lemma voice_id_is_refused_without_voices_witness :
  ∃ why eng',
    configure [("stability", PFloat 0.25%float);
               ("voice_id", PStr "21m00Tcm4TlvDq8ikWAM")] __init__
    = Raised (TTSEngineError why) eng'.
Proof.
  apply (voice_id_is_refused_without_voices _ __init__
           (PStr "21m00Tcm4TlvDq8ikWAM")).
  - apply reached_init.
  - done.
  - right. left.
Defined.

Lemma configure_applies_valid_settings_witness :
  ∃ eng',
    configure [("stability", PFloat 0.25%float); ("speed", PInt 2)] __init__
    = Returned eng' ∧
    (∀ k v, (k, v) ∈ [("stability", PFloat 0.25%float); ("speed", PInt 2)] →
            k ∈ recognized → dict_get k (_settings eng') = Some v) ∧
    (∀ k, k ∉ keys [("stability", PFloat 0.25%float); ("speed", PInt 2)] →
          dict_get k (_settings eng') = dict_get k (_settings __init__)) ∧
    keys (_settings eng') = recognized ∧
    _speaking eng' = _speaking __init__ ∧ _paused eng' = _paused __init__ ∧
    _voice_cache eng' = _voice_cache __init__.
Proof.
  apply configure_applies_valid_settings.
  - apply reached_init.
  - refine (bool_decide_unpack _ _). by vm_compute.
  - intros k v [Heq|[Heq|Hin]%elem_of_cons]%elem_of_cons Hrec.
    + simplify_eq. by vm_compute.
    + simplify_eq. exfalso. revert Hrec. unfold recognized. set_solver.
    + by apply elem_of_nil in Hin.
Defined.

Lemma model_id_is_not_validated_witness :
  configure [("model_id", PList [])] __init__
  = Returned (set_settings (dict_set "model_id" (PList [])) __init__).
Proof. apply model_id_is_not_validated, reached_init. Defined.

Lemma initialize_then_voice_id_witness :
  ∃ eng1,
    initialize (Some "secret") (Some ["voice-a"; "voice-b"]) __init__ = (true, eng1) ∧
    ("voice-a" ∈ ["voice-a"; "voice-b"] →
     configure [("voice_id", PStr "voice-a")] eng1
     = Returned (set_settings (dict_set "voice_id" (PStr "voice-a")) eng1)) ∧
    ("voice-a" ∉ ["voice-a"; "voice-b"] →
     configure [("voice_id", PStr "voice-a")] eng1
     = Raised (TTSEngineError InvalidVoiceId) eng1).
Proof.
  apply initialize_then_voice_id; [apply reached_init | done].
Defined.

End EngineLifecycle.


(** * More of the engine factories: registration, removal and identity *)

Module Registry.
Import TTSFactory.

(** ** The memoizing registry of [dist/engines/tts_factory.py] *)

(** Every memoized instance is an object of the heap, and no two names share
    one. *)
Definition memo_ok (f : factory) : Prop :=
  (∀ name i, _engines f !! name = Some i → (i < length (heap f))%nat) ∧
  (∀ n1 n2 i, _engines f !! n1 = Some i → _engines f !! n2 = Some i → n1 = n2).

Lemma reachable_memo_ok f : reachable f → memo_ok f.
Proof.
  induction 1 as [plugins|r n f _ [IHb IHi]|n c f _ IH|n f _ [IHb IHi]|r f _ IH].
  - split; simpl; intros *; by rewrite lookup_empty.
  - unfold get_engine.
    destruct (_engines f !! n) eqn:He; [done|].
    destruct (_engine_classes f !! n) eqn:Hc; [|done].
    destruct r; [done|]. split; simpl.
    + intros name i. rewrite length_app. simpl.
      destruct (decide (n = name)) as [Heq|Hne].
      * subst name. rewrite lookup_insert_eq. intros [= <-]. lia.
      * rewrite lookup_insert_ne by done. intros ?%IHb. lia.
    + intros n1 n2 i.
      destruct (decide (n = n1)) as [Heq1|Hne1], (decide (n = n2)) as [Heq2|Hne2];
        try subst n1; try subst n2; try done.
      * rewrite lookup_insert_eq, lookup_insert_ne by done.
        intros [= <-] ?%IHb. lia.
      * rewrite lookup_insert_eq, lookup_insert_ne by done.
        intros ?%IHb [= <-]. lia.
      * rewrite !lookup_insert_ne by done. apply IHi.
  - unfold register_engine. by destruct (implements_interface c).
  - unfold unregister_engine. destruct (_engine_classes f !! n); [|done].
    split; simpl.
    + intros name i ?%lookup_delete_Some. naive_solver.
    + intros n1 n2 i [_ ?]%lookup_delete_Some [_ ?]%lookup_delete_Some.
      by eapply IHi.
  - destruct r; [done|]. split; simpl; intros *; by rewrite lookup_empty.
Qed.

(** X16. After [unregister_engine(name)], [get_engine(name)] returns [None] and
    creates nothing, whether or not the name was registered or had an
    instance. *)
Theorem unregistered_name_is_not_found r name f :
  reachable f →
  get_engine r name (unregister_engine name f)
  = (None, unregister_engine name f).
Proof.
  intros Hr. unfold unregister_engine.
  destruct (_engine_classes f !! name) eqn:Hc.
  - unfold get_engine. simpl. by rewrite !lookup_delete_eq.
  - unfold get_engine. rewrite Hc.
    destruct (_engines f !! name) eqn:He; [|done].
    destruct (reachable_engines_registered f name Hr) as [c Hc']; [by eauto|].
    congruence.
Qed.

(** X17. Registering a class under a name takes effect on the next lookup only if
    the name has no instance yet: then the lookup creates an instance of the
    new class.  A name that already has an instance keeps returning that
    instance, which is of the class it was created from. *)
Theorem registration_does_not_replace_an_instance name c f :
  reachable f →
  implements_interface c = true →
  match _engines f !! name with
  | Some engine =>
      ∀ r, get_engine r name (register_engine name c f)
           = (Some engine, register_engine name c f) ∧
           heap (register_engine name c f) !! engine = heap f !! engine ∧
           is_Some (heap f !! engine)
  | None =>
      ∃ f', get_engine false name (register_engine name c f)
            = (Some (length (heap f)), f') ∧
            heap f' !! length (heap f) = Some c
  end.
Proof.
  intros [Hb _]%reachable_memo_ok Hc. unfold register_engine. rewrite Hc.
  destruct (_engines f !! name) as [engine|] eqn:He.
  - intros r. unfold get_engine. simpl. rewrite He. split_and!; [done..|].
    apply lookup_lt_is_Some. by eapply Hb.
  - unfold get_engine. simpl. rewrite He, lookup_insert_eq.
    eexists. split; [done|]. simpl.
    by rewrite lookup_app_r, Nat.sub_diag by done.
Qed.

(** X18. A [cleanup] during which no engine's own [cleanup()] raises forgets
    the instances: the next lookup of a registered name creates a new one,
    which is none of the instances handed out before.  A [cleanup] during
    which an engine's [cleanup()] raises forgets nothing: the registry is as
    it was, and a name that had an instance still returns it. *)
Theorem cleanup_ends_the_singleton name f :
  reachable f →
  is_Some (_engine_classes f !! name) →
  (∃ engine f',
     get_engine false name (cleanup false f) = (Some engine, f') ∧
     ∀ name' old, _engines f !! name' = Some old → engine ≠ old) ∧
  cleanup true f = f ∧
  (∀ old r, _engines f !! name = Some old →
            get_engine r name (cleanup true f) = (Some old, cleanup true f)).
Proof.
  intros [Hb _]%reachable_memo_ok [c Hc]. split_and!.
  - unfold get_engine, cleanup. simpl.
    rewrite lookup_empty, Hc. eexists _, _. split; [done|].
    intros name' old Hold%Hb. lia.
  - done.
  - intros old r Hold. by apply get_engine_memoized.
Qed.

(** X19. Two names never share an instance. *)
Theorem names_do_not_share_an_instance f n1 n2 engine :
  reachable f →
  _engines f !! n1 = Some engine →
  _engines f !! n2 = Some engine →
  n1 = n2.
Proof. intros [_ Hi]%reachable_memo_ok. apply Hi. Qed.

(** ** Runs *)

(** The factory after [get_engine("pyttsx3")]. *)
Definition one_instance : factory := (get_engine false "pyttsx3" (__init__ [])).2.

Lemma one_instance_reachable : reachable one_instance.
Proof. apply reach_get, reach_init. Qed.

Lemma unregistered_name_is_not_found_witness :
  get_engine false "pyttsx3" (unregister_engine "pyttsx3" one_instance)
  = (None, unregister_engine "pyttsx3" one_instance).
Proof. apply unregistered_name_is_not_found, one_instance_reachable. Defined.

Lemma registration_does_not_replace_an_instance_witness :
  match _engines one_instance !! "pyttsx3" with
  | Some engine =>
      ∀ r, get_engine r "pyttsx3"
             (register_engine "pyttsx3" (EngineClass "Other" true) one_instance)
           = (Some engine,
              register_engine "pyttsx3" (EngineClass "Other" true) one_instance) ∧
           heap (register_engine "pyttsx3" (EngineClass "Other" true) one_instance)
             !! engine = heap one_instance !! engine ∧
           is_Some (heap one_instance !! engine)
  | None =>
      ∃ f', get_engine false "pyttsx3"
              (register_engine "pyttsx3" (EngineClass "Other" true) one_instance)
            = (Some (length (heap one_instance)), f') ∧
            heap f' !! length (heap one_instance) = Some (EngineClass "Other" true)
  end.
Proof.
  apply registration_does_not_replace_an_instance;
    [apply one_instance_reachable | done].
Defined.

Lemma cleanup_ends_the_singleton_witness :
  (∃ engine f',
     get_engine false "pyttsx3" (cleanup false one_instance) = (Some engine, f') ∧
     ∀ name' old, _engines one_instance !! name' = Some old → engine ≠ old) ∧
  cleanup true one_instance = one_instance ∧
  (∀ old r, _engines one_instance !! "pyttsx3" = Some old →
            get_engine r "pyttsx3" (cleanup true one_instance)
            = (Some old, cleanup true one_instance)).
Proof.
  apply cleanup_ends_the_singleton; [apply one_instance_reachable|].
  exists PyTTSx3Engine. by vm_compute.
Defined.

Lemma names_do_not_share_an_instance_witness :
  _engines one_instance !! "pyttsx3" = Some 0%nat ∧ "pyttsx3" = "pyttsx3".
Proof.
  assert (_engines one_instance !! "pyttsx3" = Some 0%nat) as He by (by vm_compute).
  split; [done|].
  exact (names_do_not_share_an_instance one_instance "pyttsx3" "pyttsx3" 0%nat
           one_instance_reachable He He).
Defined.

(** ** The factory of [engines/factory.py] *)

(** The instances a run of [get_engine] calls returns, in order; a call that
    raises returns none. *)
Fixpoint instances_of (calls : list (bool * string)) (f : EnginesFactory.factory)
    : list instance :=
  match calls with
  | [] => []
  | (r, engine_type) :: calls' =>
      match EnginesFactory.get_engine r engine_type f with
      | EnginesFactory.Returned engine f' => engine :: instances_of calls' f'
      | EnginesFactory.Raised _ f' => instances_of calls' f'
      end
  end.

Lemma instances_of_new calls f engine :
  engine ∈ instances_of calls f → (length (EnginesFactory.heap f) ≤ engine)%nat.
Proof.
  revert f. induction calls as [|[r t] calls IH]; intros f; simpl.
  { by intros ?%elem_of_nil. }
  unfold EnginesFactory.get_engine.
  destruct (EnginesFactory._engines f !! t); [|apply IH].
  destruct r; [apply IH|].
  intros [->|Hin%IH]%elem_of_cons; [done|].
  simpl in Hin. rewrite length_app in Hin. simpl in Hin. lia.
Qed.

(** X20. No instance is ever handed out twice: the instances that any run of
    [get_engine] calls returns are pairwise different objects, also when the
    calls ask for the same engine type. *)
Theorem every_call_builds_a_new_instance calls f :
  NoDup (instances_of calls f).
Proof.
  revert f. induction calls as [|[r t] calls IH]; intros f; simpl.
  { apply NoDup_nil_2. }
  unfold EnginesFactory.get_engine.
  destruct (EnginesFactory._engines f !! t); [|apply IH].
  destruct r; [apply IH|].
  apply NoDup_cons. split; [|apply IH].
  intros Hin%instances_of_new. simpl in Hin. rewrite length_app in Hin.
  simpl in Hin. lia.
Qed.

(** X21. [register_engine] takes effect at once, also over a built-in type: the
    next [get_engine] of that type builds an instance of the class just
    registered and leaves the registry as it is. *)
Theorem registered_class_is_built engine_type c f :
  ∃ f',
    EnginesFactory.get_engine false engine_type
      (EnginesFactory.register_engine engine_type c f)
    = EnginesFactory.Returned (length (EnginesFactory.heap f)) f' ∧
    EnginesFactory.heap f' !! length (EnginesFactory.heap f) = Some c ∧
    EnginesFactory._engines f'
    = EnginesFactory._engines (EnginesFactory.register_engine engine_type c f).
Proof.
  unfold EnginesFactory.get_engine, EnginesFactory.register_engine. simpl.
  rewrite lookup_insert_eq. eexists. split; [done|]. simpl. split; [|done].
  by rewrite lookup_app_r, Nat.sub_diag by done.
Qed.

End Registry.


(** * More of the time-domain processor: switched-off chains and files *)

Module EffectChain.
Import AudioEffects.

(** The keys [_apply_effects] looks up, in the order of its stages. *)
Definition stage_keys : list string :=
  ["noise_reduction"; "equalization"; "compression"; "reverb"; "echo";
   "pitch_shift"; "time_stretch"; "stereo_width"].

Section processor.
Context {audio error : Type}.
Context (_reduce_noise : audio → @result audio error)
        (_apply_eq _apply_compression _apply_reverb _apply_echo
         _shift_pitch _stretch_time _adjust_stereo_width
           : audio → pyval → @result audio error).

#[local] Abbreviation _apply_effects :=
  (AudioEffects._apply_effects _reduce_noise _apply_eq _apply_compression
     _apply_reverb _apply_echo _shift_pitch _stretch_time _adjust_stereo_width).

(** [librosa.load(input_path, sr=self.sample_rate)] and
    [sf.write(output_path, audio, self.sample_rate)], which gives [None]
    when it succeeds and the exception when it raises. *)
Context (load : string → @result audio error)
        (write : string → audio → option error).

(** How [process_audio] ends: it has written [a] to [path] and returns
    [path], or it re-raises what the load, a stage or the write raised. *)
Inductive outcome :=
  | Wrote (path : string) (a : audio)
  | Reraised (x : error).

(** [process_audio].  [config_effects] is [self.effects], that is
    [config.get('effects', {})]; [effects] is [None] or the caller's map. *)
Definition process_audio (config_effects : pydict pyval)
    (input_path output_path : string) (effects : option (pydict pyval))
    : outcome :=
  match load input_path with
  | Failed x => Reraised x
  | Done a =>
      let chosen :=
        match effects with
        | Some given => if truthy (PDict given) then given else config_effects
        | None => config_effects
        end in
      match _apply_effects a chosen with
      | Failed x => Reraised x
      | Done a' =>
          match write output_path a' with
          | Some x => Reraised x
          | None => Wrote output_path a'
          end
      end
  end.

(** ** Properties *)

Lemma stage_disabled (f : audio → pyval → @result audio error) effects k x :
  enabled k effects = false → stage effects k f x = Done x.
Proof.
  unfold enabled, stage. destruct (dict_get k effects); [by intros ->|done].
Qed.

(** Runs through a chain all of whose stages are switched off. *)
Ltac skip_stages :=
  unfold AudioEffects._apply_effects;
  rewrite (stage_disabled _ _ "noise_reduction") by done; cbn [bind];
  rewrite (stage_disabled _ _ "equalization") by done; cbn [bind];
  rewrite (stage_disabled _ _ "compression") by done; cbn [bind];
  rewrite (stage_disabled _ _ "reverb") by done; cbn [bind];
  rewrite (stage_disabled _ _ "echo") by done; cbn [bind];
  rewrite (stage_disabled _ _ "pitch_shift") by done; cbn [bind];
  rewrite (stage_disabled _ _ "time_stretch") by done; cbn [bind];
  rewrite (stage_disabled _ _ "stereo_width") by done.

(** X22. A map that enables no stage (an empty map, a map of other keys, a map
    whose stage entries are [None], [False], [0] or empty) makes the chain
    return its input: no stage runs, and keys the chain does not know are
    ignored without an error. *)
Theorem no_enabled_stage_returns_the_input a effects :
  Forall (λ k, enabled k effects = false) stage_keys →
  _apply_effects a effects = Done a.
Proof.
  intros Hoff. unfold stage_keys in Hoff.
  repeat (apply Forall_cons in Hoff as [? Hoff]).
  by skip_stages.
Qed.

(** X23. The caller's map replaces the configured effects, it is not merged with
    them, and an empty map counts as no map.  So [process_audio] with [{}]
    applies the configured effects, while a map that is not empty and
    enables no stage writes the loaded signal as it is. *)
Theorem empty_effects_mean_configured_effects
    config_effects input_path output_path :
  process_audio config_effects input_path output_path (Some [])
  = process_audio config_effects input_path output_path None ∧
  (∀ given, given ≠ [] →
     process_audio config_effects input_path output_path (Some given)
     = process_audio given input_path output_path None) ∧
  (∀ given a,
     given ≠ [] →
     Forall (λ k, enabled k given = false) stage_keys →
     load input_path = Done a →
     write output_path a = None →
     process_audio config_effects input_path output_path (Some given)
     = Wrote output_path a).
Proof.
  split_and!.
  - done.
  - intros given Hne. unfold process_audio.
    destruct (load input_path); [|done]. cbn [truthy].
    by rewrite bool_decide_eq_false_2 by done.
  - intros given a Hne Hoff Hload Hwrite. unfold process_audio.
    rewrite Hload. cbn [truthy].
    rewrite bool_decide_eq_false_2 by done. cbn [negb].
    unfold stage_keys in Hoff. repeat (apply Forall_cons in Hoff as [? Hoff]).
    skip_stages. by rewrite Hwrite.
Qed.

End processor.

(** ** Runs with the logging stages *)

Lemma no_enabled_stage_returns_the_input_witness :
  logged_effects ["input"] [("volume", PFloat 2%float); ("reverb", PDict [])]
  = Done ["input"].
Proof.
  apply (no_enabled_stage_returns_the_input
           (λ a, log_stage "noise_reduction" a PNone)).
  unfold stage_keys. repeat constructor.
Defined.

End EffectChain.


(** * More of the spectral processor: one frame, and gain smoothing *)

Module SpectralFrames.
Import Spectral.

#[local] Arguments Done {A} a.
#[local] Arguments Raised {A} x.

(** ** Spectra of a single frame *)

(** An array of shape [(n, 1)]: every row holds one value. *)
Definition single_frame {A} (m : list (list A)) : Prop :=
  Forall (λ row, length row = 1%nat) m.

(** The value of bin [i] of a single frame. *)
Definition bin {A} (m : list (list A)) (i : nat) : option A := m !! i ≫= head.

(** Bin [i] is a peak: larger than both neighbours and than the
    threshold. *)
Definition peak_at (magnitude : list (list float)) (threshold : float) (i : nat)
    : Prop :=
  ∃ below here above,
    bin magnitude (i - 1) = Some below ∧
    bin magnitude i = Some here ∧
    bin magnitude (i + 1) = Some above ∧
    PrimFloat.ltb below here = true ∧
    PrimFloat.ltb above here = true ∧
    PrimFloat.ltb threshold here = true.

(** The same as a test. *)
Definition peak_test (magnitude : list (list float)) (threshold : float) (i : nat)
    : bool :=
  match bin magnitude (i - 1), bin magnitude i, bin magnitude (i + 1) with
  | Some below, Some here, Some above =>
      PrimFloat.ltb below here && PrimFloat.ltb above here &&
      PrimFloat.ltb threshold here
  | _, _, _ => false
  end.

Lemma peak_test_spec magnitude threshold i :
  peak_test magnitude threshold i = true ↔ peak_at magnitude threshold i.
Proof.
  unfold peak_test, peak_at. split.
  - destruct (bin magnitude (i - 1)) as [below|]; [|done].
    destruct (bin magnitude i) as [here|]; [|done].
    destruct (bin magnitude (i + 1)) as [above|]; [|done].
    intros [[??]%andb_true_iff ?]%andb_true_iff. by exists below, here, above.
  - intros (below & here & above & -> & -> & -> & -> & -> & ->). done.
Qed.

Lemma single_frame_lookup {A} (m : list (list A)) i row :
  single_frame m → m !! i = Some row → ∃ x, row = [x] ∧ bin m i = Some x.
Proof.
  intros Hm Hi. pose proof (Forall_lookup_1 _ _ _ _ Hm Hi) as Hlen.
  destruct row as [|x [|??]]; try done.
  exists x. split; [done|]. unfold bin. by rewrite Hi.
Qed.

Lemma bin_None {A} (m : list (list A)) i : m !! i = None → bin m i = None.
Proof. intros Hi. unfold bin. by rewrite Hi. Qed.

Lemma is_peak_single_frame magnitude threshold i :
  single_frame magnitude →
  is_peak magnitude threshold i = Done (peak_test magnitude threshold i).
Proof.
  intros Hm. unfold is_peak, peak_test.
  destruct (magnitude !! (i - 1)%nat) as [r0|] eqn:H0;
    [|by rewrite (bin_None _ _ H0)].
  destruct (single_frame_lookup _ _ _ Hm H0) as (below & -> & ->).
  destruct (magnitude !! i) as [r1|] eqn:H1; [|by rewrite (bin_None _ _ H1)].
  destruct (single_frame_lookup _ _ _ Hm H1) as (here & -> & ->).
  destruct (magnitude !! (i + 1)%nat) as [r2|] eqn:H2;
    [|by rewrite (bin_None _ _ H2)].
  destruct (single_frame_lookup _ _ _ Hm H2) as (above & -> & ->).
  unfold row_gt, row_gt_scalar. simpl.
  by destruct (PrimFloat.ltb below here), (PrimFloat.ltb above here).
Qed.

Lemma find_peaks_from_single_frame magnitude threshold indices peaks :
  single_frame magnitude →
  find_peaks_from magnitude threshold indices peaks
  = Done (peaks ++ filter (λ i, peak_test magnitude threshold i = true) indices).
Proof.
  intros Hm. revert peaks.
  induction indices as [|i indices IH]; intros peaks; simpl.
  - by rewrite app_nil_r.
  - rewrite is_peak_single_frame by done. rewrite IH, filter_cons.
    destruct (peak_test magnitude threshold i) eqn:Ht.
    + rewrite decide_True by done. by rewrite <- app_assoc.
    + by rewrite decide_False by done.
Qed.

Lemma StronglySorted_filter {A} (R : relation A) (P : A → Prop)
    `{!∀ x, Decision (P x)} l :
  StronglySorted R l → StronglySorted R (filter P l).
Proof.
  induction 1 as [|x l Hl IH Hx]; [constructor|].
  rewrite filter_cons. destruct (decide (P x)); [|done].
  constructor; [done|].
  apply Forall_forall. intros y [_ Hy]%list_elem_of_filter.
  rewrite Forall_forall in Hx. by apply Hx.
Qed.

Lemma StronglySorted_seq j n : StronglySorted lt (seq j n).
Proof.
  revert j. induction n as [|n IH]; intros j; simpl; constructor; [apply IH|].
  apply Forall_forall. intros k Hk%elem_of_seq. lia.
Qed.

Lemma find_harmonic_peaks_sorted magnitude threshold :
  single_frame magnitude →
  ∃ peaks, _find_harmonic_peaks magnitude threshold = Done peaks ∧ NoDup peaks.
Proof.
  intros Hm. unfold _find_harmonic_peaks.
  rewrite find_peaks_from_single_frame by done. simpl.
  eexists. split; [done|]. apply NoDup_filter, NoDup_seq.
Qed.

(** X24. On a single frame [_find_harmonic_peaks] returns, in increasing order,
    exactly the inner bins that are larger than both their neighbours and
    than the threshold; the first and the last bin are never peaks, and a
    spectrum of fewer than three bins has none. *)
Theorem find_harmonic_peaks_single_frame magnitude threshold :
  single_frame magnitude →
  ∃ peaks,
    _find_harmonic_peaks magnitude threshold = Done peaks ∧
    StronglySorted lt peaks ∧
    (∀ i, i ∈ peaks ↔
          (1 ≤ i)%nat ∧ (i + 1 < length magnitude)%nat ∧
          peak_at magnitude threshold i) ∧
    ((length magnitude < 3)%nat → peaks = []).
Proof.
  intros Hm. unfold _find_harmonic_peaks.
  rewrite find_peaks_from_single_frame by done. simpl.
  eexists. split; [done|]. split_and!.
  - apply StronglySorted_filter, StronglySorted_seq.
  - intros i. rewrite list_elem_of_filter, elem_of_seq, peak_test_spec.
    split.
    + intros [Hp [??]]. split_and!; [done|lia|done].
    + intros (?&?&?). split; [done|lia].
  - intros Hlen.
    replace (length magnitude - 2)%nat with 0%nat by lia. done.
Qed.

(** ** Harmonic enhancement of a single frame *)

Lemma lookup_foldl_alter {A} (f : A → A) (peaks : list nat) (m : list A) i :
  NoDup peaks →
  foldl (λ m peak, alter f peak m) m peaks !! i
  = if bool_decide (i ∈ peaks) then f <$> m !! i else m !! i.
Proof.
  revert m. induction peaks as [|p peaks IH]; intros m Hnd; simpl; [done|].
  apply NoDup_cons in Hnd as [Hp Hnd]. rewrite IH by done.
  destruct (decide (i = p)) as [->|Hne].
  - rewrite (bool_decide_eq_false_2 (p ∈ peaks)) by done.
    rewrite (bool_decide_eq_true_2 (p ∈ p :: peaks)) by left.
    apply list_lookup_alter_eq.
  - rewrite list_lookup_alter_ne by done.
    rewrite (bool_decide_ext (i ∈ p :: peaks) (i ∈ peaks)); [done|].
    rewrite elem_of_cons. tauto.
Qed.

Section harmonics.
Context {complex : Type}
        (np_abs : complex → float)
        (np_angle : complex → float)
        (polar : float → float → complex)
        (float_of_int : Z → float).

#[local] Abbreviation _enhance_harmonics :=
  (Spectral._enhance_harmonics np_abs np_angle polar float_of_int).
#[local] Abbreviation get_number := (Spectral.get_number float_of_int).

(** X25. On a spectrogram of a single frame the enhancement does what it is
    meant to do: it returns a spectrogram of the same size in which each
    bin has the phase it had, and its magnitude multiplied by the
    enhancement factor if the bin is one of the peaks found and unchanged
    otherwise. *)
Theorem enhance_harmonics_single_frame D params enhancement threshold :
  get_number params "enhancement" 1.5%float = Some enhancement →
  get_number params "threshold" 0.1%float = Some threshold →
  single_frame D →
  ∃ peaks enhanced,
    _find_harmonic_peaks (fmap (M:=list) np_abs <$> D) threshold = Done peaks ∧
    _enhance_harmonics D params = Done enhanced ∧
    length enhanced = length D ∧
    ∀ i z, D !! i = Some [z] →
      enhanced !! i
      = Some [polar (if bool_decide (i ∈ peaks)
                     then PrimFloat.mul (np_abs z) enhancement
                     else np_abs z)
                    (np_angle z)].
Proof.
  intros He Ht HD.
  assert (single_frame (fmap (M:=list) np_abs <$> D)) as Hm.
  { apply Forall_fmap. eapply Forall_impl; [exact HD|].
    intros row Hrow. simpl. by rewrite length_fmap. }
  destruct (find_harmonic_peaks_sorted (fmap (M:=list) np_abs <$> D) threshold Hm)
    as (peaks & Hpeaks & Hsorted).
  exists peaks. unfold Spectral._enhance_harmonics. rewrite He, Ht, Hpeaks.
  eexists. split; [done|]. split; [done|]. split.
  - rewrite length_zip_with, length_fmap.
    assert (∀ (m : list (list float)) ps,
              length (foldl (λ m peak, scale_row enhancement peak m) m ps)
              = length m) as Hlen.
    { intros m ps. revert m. induction ps as [|p ps IH]; intros m; simpl; [done|].
      rewrite IH. apply length_alter. }
    rewrite Hlen, length_fmap. lia.
  - intros i z Hi. rewrite lookup_zip_with.
    unfold scale_row. rewrite lookup_foldl_alter by done.
    rewrite !list_lookup_fmap, Hi. simpl.
    by destruct (bool_decide (i ∈ peaks)).
Qed.

End harmonics.

(** ** Gain smoothing on a spectrogram *)

(** What [_smooth_gain_reduction] can raise: the [ValueError] of an
    ambiguous truth value, or the [IndexError] of [gain_reduction[0]] on an
    array without rows. *)
Inductive smoothing_error := Ambiguous | IndexError.

(** One pass of the loop body for the row [gain_reduction[i]]: the new
    [current_gain], or the error of the [if]. *)
Definition smooth_step (float_of_int : Z → float) (attack release : Z)
    (current_gain row : list float) : smoothing_error + list float :=
  match truth_value (row_gt row current_gain) with
  | Raised _ => inl Ambiguous
  | Done rising =>
      let samples := float_of_int (if rising then attack else release) in
      inr (zip_with
             (λ gain reduction,
                PrimFloat.add gain
                  (PrimFloat.div (PrimFloat.sub reduction gain) samples))
             current_gain row)
  end.

Fixpoint smooth_rows (float_of_int : Z → float) (attack release : Z)
    (rows : list (list float)) (current_gain : list float)
    (smoothed : list (list float)) : smoothing_error + list (list float) :=
  match rows with
  | [] => inr smoothed
  | row :: rest =>
      match smooth_step float_of_int attack release current_gain row with
      | inl x => inl x
      | inr current_gain' =>
          smooth_rows float_of_int attack release rest current_gain'
            (smoothed ++ [current_gain'])
      end
  end.

(** [_smooth_gain_reduction] applied to a two-dimensional array, as
    [_apply_spectral_compression] applies it: [gain_reduction[i]] and
    [current_gain] are rows. *)
Definition _smooth_gain_reduction (float_of_int : Z → float)
    (gain_reduction : list (list float)) (attack release : Z)
    : smoothing_error + list (list float) :=
  match gain_reduction with
  | [] => inl IndexError
  | first :: _ =>
      smooth_rows float_of_int attack release gain_reduction first []
  end.

(** X26. Smoothing the gain of a spectrogram of two frames or more never gets
    past its first comparison: [gain_reduction[0] > current_gain] compares
    two rows, and the [if] has no truth value for the result, whatever the
    gains and the attack and release lengths are. *)
Theorem smoothing_a_spectrogram_raises
    float_of_int gain_reduction attack release first :
  head gain_reduction = Some first →
  (2 ≤ length first)%nat →
  _smooth_gain_reduction float_of_int gain_reduction attack release
  = inl Ambiguous.
Proof.
  intros Hhead Hlen. destruct gain_reduction as [|row rest]; [done|].
  simpl in Hhead. injection Hhead as ->.
  unfold _smooth_gain_reduction. cbn [smooth_rows]. unfold smooth_step.
  rewrite truth_value_ambiguous; [done|].
  rewrite row_gt_length; done.
Qed.

(** ** Runs *)

Lemma find_harmonic_peaks_single_frame_witness :
  ∃ peaks,
    _find_harmonic_peaks [[0.5%float]; [2%float]; [1%float]; [0.5%float]]
                         0.25%float = Done peaks ∧
    StronglySorted lt peaks ∧
    (∀ i, i ∈ peaks ↔
          (1 ≤ i)%nat ∧
          (i + 1 < length [[0.5%float]; [2%float]; [1%float]; [0.5%float]])%nat ∧
          peak_at [[0.5%float]; [2%float]; [1%float]; [0.5%float]] 0.25%float i) ∧
    ((length [[0.5%float]; [2%float]; [1%float]; [0.5%float]] < 3)%nat →
     peaks = []).
Proof.
  apply find_harmonic_peaks_single_frame. unfold single_frame.
  repeat constructor.
Defined.

(** Bins of a frame given by magnitude and phase. *)
Definition one_frame : list (list (float * float)) :=
  [[(0.5%float, 0%float)]; [(2%float, 1%float)]; [(1%float, 2%float)]].

Lemma enhance_harmonics_single_frame_witness :
  ∃ peaks enhanced,
    _find_harmonic_peaks (fmap (M:=list) fst <$> one_frame) 0.25%float = Done peaks ∧
    _enhance_harmonics fst snd pair (λ z, PrimFloat.of_uint63 (Uint63.of_Z z))
      one_frame [("threshold", PFloat 0.25%float)] = Done enhanced ∧
    length enhanced = length one_frame ∧
    ∀ i z, one_frame !! i = Some [z] →
      enhanced !! i
      = Some [(if bool_decide (i ∈ peaks)
               then PrimFloat.mul (fst z) 1.5%float else fst z, snd z)].
Proof.
  apply (enhance_harmonics_single_frame fst snd pair
           (λ z, PrimFloat.of_uint63 (Uint63.of_Z z))
           one_frame [("threshold", PFloat 0.25%float)] 1.5%float 0.25%float).
  - done.
  - done.
  - unfold single_frame, one_frame. repeat constructor.
Defined.

Lemma smoothing_a_spectrogram_raises_witness :
  _smooth_gain_reduction (λ z, PrimFloat.of_uint63 (Uint63.of_Z z))
    [[0%float; 3%float]; [1%float; 2%float]] 0 21
  = inl Ambiguous.
Proof.
  apply (smoothing_a_spectrogram_raises _ _ 0 21 [0%float; 3%float]).
  - done.
  - simpl. lia.
Defined.

End SpectralFrames.
